(** * flatten-to-key-value: a shallow embedding of [src/index.ts]

    The module exports one function, [flattenToKeyValue], which turns a
    JSON-like value into a flat object from delimiter-joined paths to
    strings.  Its closures [add], [isPrimitive], [toStr] and [walk] are
    embedded below under their own names, followed by the properties of
    the flattening that they establish.

    Conventions of the embedding:
    - a call either returns or throws ([completion]); the walk threads the
      state that [add] updates;
    - an input is a finite tree ([value]): a leaf, an array of values, or
      an object given by its entries in enumeration order; sparse arrays,
      accessors, proxies, cyclic structures and functions with an
      overridden [toString] are outside the model, and so is the depth of
      the call stack;
    - the [Map] accumulator is the list of its entries in insertion order;
    - the returned object is the list of its properties in the order in
      which an ordinary object enumerates them. *)

From Stdlib Require Import String Ascii List ZArith NArith Bool Lia.
From Stdlib Require Import Permutation Sorted DecimalString OrderedTypeEx.
Import ListNotations.
Local Open Scope string_scope.
Local Open Scope list_scope.

(** ** Completions: a call returns normally or throws *)

Inductive exception : Type :=
| RangeError
| TypeError
| OtherError (message : string).

Inductive completion (A : Type) : Type :=
| Normal (a : A)
| Throw (e : exception).

Arguments Normal {A} a.
Arguments Throw {A} e.

Definition bind {A B : Type} (c : completion A) (k : A -> completion B)
  : completion B :=
  match c with
  | Normal a => k a
  | Throw e => Throw e
  end.

Notation "x <- c ;; k" := (bind c (fun x => k))
  (at level 61, c at next level, right associativity).

(** [try { c } catch { handler }] *)
Definition try_catch {A : Type} (c handler : completion A) : completion A :=
  match c with
  | Normal a => Normal a
  | Throw _ => handler
  end.

(** [for (const item of items) body(item)], the loop body acting on a
    threaded state. *)
Definition for_of {A S : Type} (body : A -> S -> completion S)
  : list A -> S -> completion S :=
  fix loop (items : list A) (s : S) : completion S :=
    match items with
    | [] => Normal s
    | item :: rest => s' <- body item s ;; loop rest s'
    end.

(** ** Input values

    Strings are sequences of 8-bit code units.  A number is observed by
    the program only through [String(v)]: an integral value (of magnitude
    below 10^21) prints in decimal, and any other finite double is carried
    by the text that [Number::toString] gives it. *)

Inductive number : Type :=
| Int (z : Z)
| NaN
| Infinity (negative : bool)
| Fraction (text : string).

(** A [Date] object: a valid time value with its ISO-8601 rendering, or
    the Invalid Date ([new Date(NaN)]). *)
Inductive date : Type :=
| ValidDate (iso : string)
| InvalidDate.

(** A function object.  [toJSON] is [None] for an ordinary function; when
    the function object carries a callable [toJSON] property it is the
    completion of [JSON.stringify] on it: the serialisation of what the
    method returns ([None] for [undefined]), or what it throws. *)
Record function_object : Type := {
  source_text : string;
  toJSON : option (completion (option string))
}.

(** Leaves are the values without nested structure: [typeof v] is not
    ["object"], or [v] is [null] or a [Date]. *)
Inductive leaf : Type :=
| Null
| Undefined
| Bool (b : bool)
| Number (n : number)
| BigInt (z : Z)
| Str (s : string)
| Date (d : date)
| Function (f : function_object)
| Symbol (description : string).

(** An object is given by [Object.entries]: its own enumerable
    string-keyed properties in enumeration order. *)
#[warnings="-register-all"]
Inductive value : Type :=
| Leaf (v : leaf)
| Array (items : list value)
| Object (entries : list (string * value)).

Coercion Leaf : leaf >-> value.

(** ** Built-ins *)

Definition decimal (z : Z) : string := NilZero.string_of_int (Z.to_int z).

Definition Number_toString (n : number) : string :=
  match n with
  | Int z => decimal z
  | NaN => "NaN"
  | Infinity false => "Infinity"
  | Infinity true => "-Infinity"
  | Fraction text => text
  end.

(** [Date.prototype.toISOString] throws a RangeError on the Invalid Date. *)
Definition toISOString (d : date) : completion string :=
  match d with
  | ValidDate iso => Normal iso
  | InvalidDate => Throw RangeError
  end.

(** [JSON.stringify] on a function: [undefined], unless a [toJSON] method
    takes over. *)
Definition JSON_stringify_function (f : function_object)
  : completion (option string) :=
  match toJSON f with
  | None => Normal None
  | Some r => r
  end.

(** [JSON.stringify] on a symbol is [undefined]. *)
Definition JSON_stringify_symbol (description : string)
  : completion (option string) :=
  Normal None.

Definition String_function (f : function_object) : string := source_text f.

Definition String_symbol (description : string) : string :=
  "Symbol(" ++ description ++ ")".

(** A string is truthy when it is not empty. *)
Definition truthy (s : string) : bool := negb (s =? "").

(** [Array.prototype.join] on an array of strings. *)
Definition join (joiner : string) (arr : list string) : string :=
  String.concat joiner arr.

(** [Array.prototype.includes] on an array of strings. *)
Definition includes (list : list string) (val : string) : bool :=
  existsb (String.eqb val) list.

(** ** [Map<string, V>]: entries in insertion order *)

Section StringMap.
Context {V : Type}.

Fixpoint Map_get (key : string) (m : list (string * V)) : option V :=
  match m with
  | [] => None
  | (k, v) :: rest => if k =? key then Some v else Map_get key rest
  end.

(** [Map.prototype.set]: an existing key keeps its position. *)
Fixpoint Map_set (key : string) (v : V) (m : list (string * V))
  : list (string * V) :=
  match m with
  | [] => [(key, v)]
  | (k, v') :: rest =>
      if k =? key then (k, v) :: rest else (k, v') :: Map_set key v rest
  end.

Definition keys (m : list (string * V)) : list string := map fst m.
End StringMap.

Definition accumulator : Type := list (string * list string).

(** ** Plain objects with string values, as returned

    An ordinary object enumerates its array-index keys first, in ascending
    numeric order, and then its other string keys in creation order.  The
    result object is represented by its properties in that order. *)

Definition object : Type := list (string * string).

Definition is_digit (c : ascii) : bool :=
  ((48 <=? N_of_ascii c) && (N_of_ascii c <=? 57))%N.

Fixpoint all_digits (s : string) : bool :=
  match s with
  | EmptyString => true
  | String c rest => is_digit c && all_digits rest
  end.

Fixpoint digits_value (s : string) (n : N) : N :=
  match s with
  | EmptyString => n
  | String c rest => digits_value rest (10 * n + (N_of_ascii c - 48))%N
  end.

(** An array index is a canonical numeric string: the decimal form, without
    leading zero, of an integer in [0, 2^32 - 2]. *)
Definition array_index (s : string) : option N :=
  match s with
  | EmptyString => None
  | String c rest =>
      if all_digits s
         && (negb (Ascii.eqb c "0") || (rest =? ""))
         && (String.length s <=? 10)%nat
         && (digits_value s 0 <=? 4294967294)%N
      then Some (digits_value s 0)
      else None
  end.

(** A new array-index key goes before the first array index above it, or
    before the first key that is not an array index. *)
Fixpoint insert_index (n : N) (k v : string) (obj : object) : object :=
  match obj with
  | [] => [(k, v)]
  | (k', v') :: rest =>
      match array_index k' with
      | Some n' =>
          if (n <? n')%N then (k, v) :: obj
          else (k', v') :: insert_index n k v rest
      | None => (k, v) :: obj
      end
  end.

(** [CreateDataProperty(obj, k, v)] *)
Definition define_property (obj : object) (kv : string * string) : object :=
  let (k, v) := kv in
  match Map_get k obj with
  | Some _ => Map_set k v obj
  | None =>
      match array_index k with
      | Some n => insert_index n k v obj
      | None => obj ++ [(k, v)]
      end
  end.

Definition Object_fromEntries (entries : list (string * string)) : object :=
  fold_left define_property entries [].

(** The comparator [([a], [b]) => (a < b ? -1 : a > b ? 1 : 0)]; [<] on
    strings compares code units lexicographically. *)
Definition compare_keys (x y : string * string) : comparison :=
  if (fst x <? fst y)%string then Lt
  else if (fst y <? fst x)%string then Gt
  else Eq.

(** [Array.prototype.sort] is stable; insertion sort is. *)
Fixpoint sort_insert (x : string * string) (sorted : list (string * string))
  : list (string * string) :=
  match sorted with
  | [] => [x]
  | y :: rest =>
      match compare_keys x y with
      | Gt => y :: sort_insert x rest
      | _ => x :: sorted
      end
  end.

Definition sort (entries : list (string * string)) : list (string * string) :=
  fold_right sort_insert [] entries.

(** ** The program *)

Record FlattenOptions : Type := {
  delimiter : option string;
  joiner : option string;
  includeNullUndefined : option bool;
  dedupeArrayValues : option bool;
  sortKeys : option bool
}.

(** [opts = {}] *)
Definition no_options : FlattenOptions :=
  {| delimiter := None; joiner := None; includeNullUndefined := None;
     dedupeArrayValues := None; sortKeys := None |}.

(** [x ?? d] *)
Definition nullish {A : Type} (x : option A) (d : A) : A :=
  match x with
  | Some a => a
  | None => d
  end.

Definition isPrimitive (v : value) : bool :=
  match v with
  | Leaf Null | Leaf (Str _) | Leaf (Number _) | Leaf (Bool _)
  | Leaf (BigInt _) => true
  | _ => false
  end.

Definition instanceof_Date (v : value) : bool :=
  match v with
  | Leaf (Date _) => true
  | _ => false
  end.

Section Closures.
(** The constants that the closures of [flattenToKeyValue] capture. *)
Variables (delimiter_ : string) (includeNullUndefined_ dedupe : bool).

(** [list.push(val)] updates the array held by the map in place. *)
Definition add (key val : string) (acc : accumulator) : accumulator :=
  if negb (truthy key) then acc
  else
    match Map_get key acc with
    | Some list =>
        if negb dedupe || negb (includes list val)
        then Map_set key (list ++ [val]) acc
        else acc
    | None => Map_set key [val] acc
    end.

(** [toStr] is only ever applied to a value that is neither an array nor
    a plain object.  [None] is its [undefined]. *)
Definition toStr (v : leaf) : completion (option string) :=
  match v with
  | Null =>
      Normal (if includeNullUndefined_ then Some "null" else None)
  | Undefined =>
      Normal (if includeNullUndefined_ then Some "undefined" else None)
  | Date d => iso <- toISOString d ;; Normal (Some iso)
  | Str s => Normal (Some s)
  | Number n => Normal (Some (Number_toString n))
  | Bool b => Normal (Some (if b then "true" else "false"))
  | BigInt z => Normal (Some (decimal z))
  | Function f =>
      try_catch (JSON_stringify_function f)
                (Normal (Some (String_function f)))
  | Symbol d =>
      try_catch (JSON_stringify_symbol d) (Normal (Some (String_symbol d)))
  end.

(** [const next = path ? `${path}${delimiter}${k}` : k] *)
Definition next (path k : string) : string :=
  if truthy path then path ++ delimiter_ ++ k else k.

Section Walk.
(** [walk] reaches the accumulator only by calling [add]; the callee
    and its state are kept abstract here so that the same walk runs
    against the accumulator and against a log of its calls. *)
Context {S : Type} (emit : string -> string -> S -> S).

(** [const s = toStr(v); if (s !== undefined) add(path, s);] *)
Definition emit_leaf (v : leaf) (path : string) (s : S) : completion S :=
  r <- toStr v ;;
  Normal (match r with
          | Some str => emit path str s
          | None => s
          end).

Fixpoint walk (val : value) (path : string) (s : S) {struct val}
  : completion S :=
  match val with
  | Leaf v =>
      (* primitives and dates, and the fallback for what is neither an
         array nor a plain object *)
      emit_leaf v path s
  | Array items =>
      if forallb isPrimitive items then
        for_of (fun item s =>
                  match item with
                  | Leaf v => emit_leaf v path s
                  | _ => Normal s
                  end) items s
      else
        for_of (fun item s =>
                  match item with
                  | Leaf v =>
                      if isPrimitive item || instanceof_Date item
                      then emit_leaf v path s
                      else Normal s
                  | Array _ => walk item path s
                  | Object entries =>
                      for_of (fun kv s => walk (snd kv) (next path (fst kv)) s)
                             entries s
                  end) items s
  | Object entries =>
      for_of (fun kv s => walk (snd kv) (next path (fst kv)) s) entries s
  end.
End Walk.
End Closures.

Definition flattenToKeyValue (input : value) (opts : FlattenOptions)
  : completion object :=
  let delimiter_ := nullish (delimiter opts) "." in
  let joiner_ := nullish (joiner opts) "," in
  let includeNullUndefined_ := nullish (includeNullUndefined opts) false in
  let dedupe := nullish (dedupeArrayValues opts) false in
  acc <- walk delimiter_ includeNullUndefined_ (add dedupe) input "" [] ;;
  let entries := map (fun e => (fst e, join joiner_ (snd e))) acc in
  let entries :=
    if nullish (sortKeys opts) false then sort entries else entries in
  Normal (Object_fromEntries entries).

(** The handlers of the two array loops and of the field loop, by name. *)
Section Handlers.
Variables (delimiter_ : string) (includeNullUndefined_ : bool).
Context {S : Type} (emit : string -> string -> S -> S).

Definition walk_scalar (path : string) (item : value) (s : S)
  : completion S :=
  match item with
  | Leaf v => emit_leaf includeNullUndefined_ emit v path s
  | _ => Normal s
  end.

Definition walk_item (path : string) (item : value) (s : S)
  : completion S :=
  match item with
  | Leaf v =>
      if isPrimitive item || instanceof_Date item
      then emit_leaf includeNullUndefined_ emit v path s
      else Normal s
  | Array _ => walk delimiter_ includeNullUndefined_ emit item path s
  | Object entries =>
      walk delimiter_ includeNullUndefined_ emit (Object entries) path s
  end.

Definition walk_field (path : string) (kv : string * value) (s : S)
  : completion S :=
  walk delimiter_ includeNullUndefined_ emit (snd kv)
       (next delimiter_ path (fst kv)) s.
End Handlers.

(** ** The log of the calls to [add] *)

Definition log : Type := list (string * string).

Definition record (path val : string) (l : log) : log := l ++ [(path, val)].

(** The calls [add(path, s)] that the walk makes, in order. *)
Definition calls (delimiter_ : string) (includeNullUndefined_ : bool)
  (val : value) (path : string) : completion log :=
  walk delimiter_ includeNullUndefined_ record val path [].

Definition run {S : Type} (emit : string -> string -> S -> S) (l : log) (s : S)
  : S :=
  fold_left (fun s c => emit (fst c) (snd c) s) l s.

(** The values that the calls pass for one path, in order. *)
Definition values_at (key : string) (l : log) : list string :=
  map snd (filter (fun c => fst c =? key) l).

(** The first occurrence of each string, in order of appearance. *)
Fixpoint first_occurrences (l : list string) : list string :=
  match l with
  | [] => []
  | x :: rest => x :: filter (fun y => negb (y =? x)) (first_occurrences rest)
  end.

(** The sequence that a path holds once the values [vs] have been added to
    it: none until a value arrives. *)
Definition sequence_of (dedupe : bool) (vs : list string)
  : option (list string) :=
  match vs with
  | [] => None
  | _ :: _ => Some (if dedupe then first_occurrences vs else vs)
  end.

(** The field-name chains that lead to the leaves of a value: an array
    contributes no name of its own. *)
Fixpoint chains (val : value) : list (list string) :=
  match val with
  | Leaf _ => [[]]
  | Array items => flat_map chains items
  | Object entries =>
      flat_map (fun kv => map (cons (fst kv)) (chains (snd kv))) entries
  end.

(** The paths in the order in which each first receives a value. *)
Definition discovery_order (l : log) : list string :=
  first_occurrences (filter truthy (map fst l)).

Definition num (z : Z) : value := Leaf (Number (Int z)).
Definition str (s : string) : value := Leaf (Str s).

(** ** Notions used to state the properties *)

(** [a < b] on strings. *)
Definition string_lt (a b : string) : Prop := (a <? b)%string = true.

Definition key_lt (x y : string * string) : Prop := string_lt (fst x) (fst y).

Definition is_array_index (k : string) : bool :=
  match array_index k with
  | Some _ => true
  | None => false
  end.

(** Two array-index keys in ascending numeric order. *)
Definition index_le (k1 k2 : string) : Prop :=
  match array_index k1, array_index k2 with
  | Some a, Some b => (a <= b)%N
  | _, _ => False
  end.

Definition indexed (e : string * string) : bool := is_array_index (fst e).
Definition named (e : string * string) : bool := negb (is_array_index (fst e)).
Definition entry_index_le (x y : string * string) : Prop :=
  index_le (fst x) (fst y).

(** The options as [flattenToKeyValue] resolves them. *)
Definition delimiter_of (opts : FlattenOptions) : string :=
  nullish (delimiter opts) ".".
Definition joiner_of (opts : FlattenOptions) : string :=
  nullish (joiner opts) ",".
Definition includeNullUndefined_of (opts : FlattenOptions) : bool :=
  nullish (includeNullUndefined opts) false.
Definition dedupe_of (opts : FlattenOptions) : bool :=
  nullish (dedupeArrayValues opts) false.
Definition sortKeys_of (opts : FlattenOptions) : bool :=
  nullish (sortKeys opts) false.

(** The calls that [flattenToKeyValue] makes to [add]. *)
Definition calls_of (input : value) (opts : FlattenOptions) : completion log :=
  calls (delimiter_of opts) (includeNullUndefined_of opts) input "".

(** The array [entries] on which [Object.fromEntries] is called. *)
Definition entries_of (opts : FlattenOptions) (l : log)
  : list (string * string) :=
  let entries :=
    map (fun e => (fst e, join (joiner_of opts) (snd e)))
        (run (add (dedupe_of opts)) l []) in
  if sortKeys_of opts then sort entries else entries.

(** The path reached from [path] through the fields [names]. *)
Definition extend (delimiter_ path : string) (names : list string) : string :=
  fold_left (next delimiter_) names path.

(** Whether an Invalid Date occurs in a value. *)
Fixpoint has_invalid_date (val : value) : bool :=
  match val with
  | Leaf (Date InvalidDate) => true
  | Leaf _ => false
  | Array items => existsb has_invalid_date items
  | Object entries => existsb (fun kv => has_invalid_date (snd kv)) entries
  end.

(** ** Sample options and inputs *)

Definition with_includeNullUndefined : FlattenOptions :=
  {| delimiter := None; joiner := None; includeNullUndefined := Some true;
     dedupeArrayValues := None; sortKeys := None |}.

Definition with_dedupeArrayValues : FlattenOptions :=
  {| delimiter := None; joiner := None; includeNullUndefined := None;
     dedupeArrayValues := Some true; sortKeys := None |}.

Definition with_sortKeys : FlattenOptions :=
  {| delimiter := None; joiner := None; includeNullUndefined := None;
     dedupeArrayValues := None; sortKeys := Some true |}.

(** [{ dedupeArrayValues: true, sortKeys: true }] *)
Definition with_dedupe_and_sort : FlattenOptions :=
  {| delimiter := None; joiner := None; includeNullUndefined := None;
     dedupeArrayValues := Some true; sortKeys := Some true |}.

Definition with_delimiter (d : string) : FlattenOptions :=
  {| delimiter := Some d; joiner := None; includeNullUndefined := None;
     dedupeArrayValues := None; sortKeys := None |}.

Definition with_joiner (j : string) : FlattenOptions :=
  {| delimiter := None; joiner := Some j; includeNullUndefined := None;
     dedupeArrayValues := None; sortKeys := None |}.

(** [{purchases: [{sku:"X",qty:1}, {sku:"Y",qty:2}, {sku:"X",qty:3}]}] *)
Definition purchases : value :=
  Object [("purchases",
           Array [Object [("sku", str "X"); ("qty", num 1)];
                  Object [("sku", str "Y"); ("qty", num 2)];
                  Object [("sku", str "X"); ("qty", num 3)]])].

(** [{tags: ["a", "b", "b"]}] *)
Definition tags : value :=
  Object [("tags", Array [str "a"; str "b"; str "b"])].

(** The input of the usage example of the README. *)
Definition readme_input : value :=
  Object [("user", Object [("id", num 1); ("name", str "Ann")]);
          ("tags", Array [str "a"; str "b"; str "b"]);
          ("purchases",
           Array [Object [("sku", str "X"); ("qty", num 1)];
                  Object [("sku", str "Y"); ("qty", num 2)];
                  Object [("sku", str "X"); ("qty", num 3)]])].

(** [function () {}] *)
Definition plain_function : function_object :=
  {| source_text := "function () {}"; toJSON := None |}.

(** [{"9": 1, "10": 2}] *)
Definition nine_ten : value := Object [("9", num 1); ("10", num 2)].

(** [[{a: 1}, {"0": 2}]] *)
Definition a_then_zero : value :=
  Array [Object [("a", num 1)]; Object [("0", num 2)]].

(** ** Further notions: the type tests of the source, and values read back *)







Section Tests.
Variables (delimiter_ : string) (includeNullUndefined_ : bool).
Context {S : Type} (emit : string -> string -> S -> S).

(** The calls that the body of [walk] makes to [walk]. *)
Variable rec : value -> string -> S -> completion S.

End Tests.

(** The elements that the loop over a mixed array passes over. *)
Definition skipped_in_array (v : value) : bool :=
  match v with
  | Leaf Undefined | Leaf (Function _) | Leaf (Symbol _) => true
  | _ => false
  end.

(** A returned object read back as an input: its entries are its
    properties in enumeration order, each holding a string. *)
Definition as_value (out : object) : value :=
  Object (map (fun e => (fst e, Leaf (Str (snd e)))) out).

(** The path of a call made below a field [k], given the path of the same
    call made from the root. *)
Definition prefix_path (delimiter_ k path : string) : string :=
  if truthy path then k ++ delimiter_ ++ path else k.

(** Whether every field name of a value is non-empty. *)
Fixpoint names_nonempty (val : value) : bool :=
  match val with
  | Leaf _ => true
  | Array items => forallb names_nonempty items
  | Object entries =>
      forallb (fun kv => truthy (fst kv) && names_nonempty (snd kv)) entries
  end.

(** [l1] is [l2] with some of its elements left out. *)
Inductive subsequence {A : Type} : list A -> list A -> Prop :=
| subsequence_nil : subsequence [] []
| subsequence_keep x l1 l2 :
    subsequence l1 l2 -> subsequence (x :: l1) (x :: l2)
| subsequence_drop x l1 l2 :
    subsequence l1 l2 -> subsequence l1 (x :: l2).

(** [l1] is the beginning of [l2]. *)
Definition prefix_of {A : Type} (l1 l2 : list A) : Prop :=
  exists rest, l2 = l1 ++ rest.

(** ** Induction on values, through arrays and objects *)

Section ValueInduction.
Variable P : value -> Prop.
Hypothesis HLeaf : forall v, P (Leaf v).
Hypothesis HArray : forall items, Forall P items -> P (Array items).
Hypothesis HObject :
  forall entries, Forall (fun kv => P (snd kv)) entries -> P (Object entries).

Fixpoint value_induction (val : value) : P val :=
  match val with
  | Leaf v => HLeaf v
  | Array items =>
      HArray items
        ((fix all (l : list value) : Forall P l :=
            match l with
            | [] => Forall_nil P
            | x :: r => Forall_cons x (value_induction x) (all r)
            end) items)
  | Object entries =>
      HObject entries
        ((fix all (l : list (string * value))
            : Forall (fun kv => P (snd kv)) l :=
            match l with
            | [] => Forall_nil _
            | x :: r => Forall_cons x (value_induction (snd x)) (all r)
            end) entries)
  end.
End ValueInduction.

(** * Properties *)

(** ** Unfolding [walk] *)

Section WalkEquations.
Variables (delimiter_ : string) (includeNullUndefined_ : bool).
Context {S : Type} (emit : string -> string -> S -> S).

Lemma walk_Leaf v path s :
  walk delimiter_ includeNullUndefined_ emit (Leaf v) path s
  = emit_leaf includeNullUndefined_ emit v path s.
Proof. reflexivity. Qed.

Lemma walk_Array items path s :
  walk delimiter_ includeNullUndefined_ emit (Array items) path s =
  if forallb isPrimitive items
  then for_of (walk_scalar includeNullUndefined_ emit path) items s
  else for_of (walk_item delimiter_ includeNullUndefined_ emit path) items s.
Proof. reflexivity. Qed.

Lemma walk_Object entries path s :
  walk delimiter_ includeNullUndefined_ emit (Object entries) path s =
  for_of (walk_field delimiter_ includeNullUndefined_ emit path) entries s.
Proof. reflexivity. Qed.
End WalkEquations.

(** ** Loops *)

Section Loops.
Context {A S : Type}.
Implicit Types (body : A -> S -> completion S) (s : S).

Lemma for_of_nil body s : for_of body [] s = Normal s.
Proof. reflexivity. Qed.

Lemma for_of_cons body x rest s :
  for_of body (x :: rest) s = s' <- body x s ;; for_of body rest s'.
Proof. reflexivity. Qed.

Lemma for_of_app body l1 l2 s :
  for_of body (l1 ++ l2) s = s' <- for_of body l1 s ;; for_of body l2 s'.
Proof.
  revert s. induction l1 as [|x l1 IH]; intros s.
  - reflexivity.
  - rewrite <- app_comm_cons, !for_of_cons.
    destruct (body x s) as [s1|e]; simpl; [apply IH | reflexivity].
Qed.

Lemma for_of_ext body1 body2 items :
  (forall x, In x items -> forall s, body1 x s = body2 x s) ->
  forall s, for_of body1 items s = for_of body2 items s.
Proof.
  induction items as [|x rest IH]; intros H s.
  - reflexivity.
  - rewrite !for_of_cons, (H x (or_introl eq_refl)).
    destruct (body2 x s) as [s1|e]; simpl; [| reflexivity].
    apply IH. intros y Hy. apply H. right. exact Hy.
Qed.
End Loops.

Lemma for_of_concat {A S : Type} (body : A -> S -> completion S) ls s :
  for_of body (concat ls) s = for_of (for_of body) ls s.
Proof.
  revert s. induction ls as [|l ls IH]; intros s.
  - reflexivity.
  - simpl concat. rewrite for_of_app, for_of_cons.
    destruct (for_of body l s) as [s1|e]; simpl; [apply IH | reflexivity].
Qed.

(** ** The walk is determined by its calls to [add] *)

Lemma run_app {S : Type} (emit : string -> string -> S -> S) l1 l2 s :
  run emit (l1 ++ l2) s = run emit l2 (run emit l1 s).
Proof. apply fold_left_app. Qed.

Lemma run_record l l0 : run record l l0 = l0 ++ l.
Proof.
  revert l0. induction l as [|c l IH]; intros l0.
  - symmetry. apply app_nil_r.
  - change (run record (c :: l) l0)
      with (run record l (record (fst c) (snd c) l0)).
    rewrite IH. unfold record. rewrite <- app_assoc, <- surjective_pairing.
    reflexivity.
Qed.

Section Replay.
Context {A : Type}.
Variable body :
  forall S : Type, (string -> string -> S -> S) -> A -> S -> completion S.

Lemma for_of_replay items :
  (forall x, In x items ->
     forall S (emit : string -> string -> S -> S) s,
       body S emit x s = l <- body log record x [] ;; Normal (run emit l s)) ->
  forall S (emit : string -> string -> S -> S) s,
    for_of (body S emit) items s =
    l <- for_of (body log record) items [] ;; Normal (run emit l s).
Proof.
  induction items as [|x rest IH]; intros H S emit s.
  - reflexivity.
  - assert (Hrest : forall y, In y rest ->
              forall S (emit : string -> string -> S -> S) s,
                body S emit y s =
                l <- body log record y [] ;; Normal (run emit l s))
      by (intros y Hy; apply H; right; exact Hy).
    specialize (IH Hrest).
    rewrite !for_of_cons, (H x (or_introl eq_refl)).
    destruct (body log record x []) as [l1|e]; simpl; [| reflexivity].
    rewrite IH, (IH log record l1).
    destruct (for_of (body log record) rest []) as [l2|e]; simpl;
      [| reflexivity].
    rewrite run_record, run_app. reflexivity.
Qed.
End Replay.

Section WalkReplay.
Variables (delimiter_ : string) (includeNullUndefined_ : bool).

Lemma emit_leaf_replay {S : Type} (emit : string -> string -> S -> S)
      v path s :
  emit_leaf includeNullUndefined_ emit v path s =
  l <- emit_leaf includeNullUndefined_ record v path [] ;;
  Normal (run emit l s).
Proof.
  unfold emit_leaf.
  destruct (toStr includeNullUndefined_ v) as [[x|]|e]; reflexivity.
Qed.

(** Running the walk against any callee amounts to logging its calls and
    replaying them. *)
Theorem walk_replay val :
  forall {S : Type} (emit : string -> string -> S -> S) path s,
    walk delimiter_ includeNullUndefined_ emit val path s =
    l <- calls delimiter_ includeNullUndefined_ val path ;;
    Normal (run emit l s).
Proof.
  unfold calls.
  induction val as [v|items IH|entries IH] using value_induction;
    intros S emit path s.
  - apply emit_leaf_replay.
  - rewrite !walk_Array. destruct (forallb isPrimitive items).
    + apply (for_of_replay
               (fun S emit => walk_scalar includeNullUndefined_ emit path)).
      intros x _ S' emit' s'. destruct x; try reflexivity.
      apply emit_leaf_replay.
    + apply (for_of_replay
               (fun S emit =>
                  walk_item delimiter_ includeNullUndefined_ emit path)).
      intros x Hx S' emit' s'.
      rewrite Forall_forall in IH. specialize (IH x Hx).
      destruct x as [v|l|es]; unfold walk_item.
      * destruct (isPrimitive v || instanceof_Date v);
          [apply emit_leaf_replay | reflexivity].
      * apply IH.
      * apply IH.
  - rewrite !walk_Object.
    apply (for_of_replay
             (fun S emit =>
                walk_field delimiter_ includeNullUndefined_ emit path)).
    intros x Hx S' emit' s'.
    rewrite Forall_forall in IH. apply (IH x Hx).
Qed.
End WalkReplay.

(** ** Maps in insertion order *)

Section MapFacts.
Context {V : Type}.
Implicit Types (m : list (string * V)) (key k : string) (v : V).

Lemma Map_get_None key m : Map_get key m = None <-> ~ In key (keys m).
Proof.
  induction m as [|[k v] m IH]; simpl.
  - tauto.
  - destruct (String.eqb_spec k key) as [->|Hne].
    + split; [discriminate | tauto].
    + rewrite IH. tauto.
Qed.

Lemma Map_get_Some_In key v m : Map_get key m = Some v -> In (key, v) m.
Proof.
  induction m as [|[k v'] m IH]; simpl; [discriminate|].
  destruct (String.eqb_spec k key) as [->|Hne].
  - intros [= ->]. now left.
  - intros H. right. now apply IH.
Qed.

Lemma In_Map_get key v m :
  NoDup (keys m) -> In (key, v) m -> Map_get key m = Some v.
Proof.
  induction m as [|[k v'] m IH]; simpl; [tauto|].
  intros Hnd [Heq|Hin].
  - injection Heq as -> ->. now rewrite String.eqb_refl.
  - inversion Hnd as [|? ? Hnotin Hnd']; subst.
    destruct (String.eqb_spec k key) as [->|Hne].
    + exfalso. apply Hnotin. change key with (fst (key, v)).
      now apply in_map.
    + now apply IH.
Qed.

Lemma Map_set_absent key v m :
  Map_get key m = None -> Map_set key v m = m ++ [(key, v)].
Proof.
  induction m as [|[k v'] m IH]; simpl; [reflexivity|].
  destruct (k =? key); [discriminate|].
  intros H. now rewrite IH.
Qed.

Lemma keys_Map_set_present key v m :
  Map_get key m <> None -> keys (Map_set key v m) = keys m.
Proof.
  induction m as [|[k v'] m IH]; simpl; [congruence|].
  destruct (k =? key); simpl; [reflexivity|].
  intros H. now rewrite IH.
Qed.

Lemma Map_get_set_same key v m : Map_get key (Map_set key v m) = Some v.
Proof.
  induction m as [|[k v'] m IH]; simpl.
  - now rewrite String.eqb_refl.
  - destruct (k =? key) eqn:E; simpl; rewrite E; [reflexivity | exact IH].
Qed.

Lemma Map_get_set_other key k v m :
  k <> key -> Map_get key (Map_set k v m) = Map_get key m.
Proof.
  intros Hne. induction m as [|[k' v'] m IH]; simpl.
  - now destruct (String.eqb_spec k key).
  - destruct (String.eqb_spec k' k) as [->|Hne']; simpl.
    + now destruct (String.eqb_spec k key).
    + now rewrite IH.
Qed.
End MapFacts.

Lemma includes_In l x : includes l x = true <-> In x l.
Proof.
  unfold includes. rewrite existsb_exists. split.
  - intros (y & Hy & E). apply String.eqb_eq in E. now subst.
  - intros H. exists x. split; [exact H | apply String.eqb_refl].
Qed.

Lemma includes_cons a l x : includes (a :: l) x = (x =? a) || includes l x.
Proof. reflexivity. Qed.

Lemma includes_keys {V : Type} key (m : list (string * V)) :
  includes (keys m) key =
  match Map_get key m with Some _ => true | None => false end.
Proof.
  destruct (Map_get key m) eqn:E.
  - apply includes_In. apply Map_get_Some_In in E.
    change key with (fst (key, v)). now apply in_map.
  - apply Map_get_None in E.
    destruct (includes (keys m) key) eqn:F; [|reflexivity].
    apply includes_In in F. contradiction.
Qed.

Lemma truthy_nonempty s : truthy s = true <-> s <> "".
Proof.
  unfold truthy. destruct (String.eqb_spec s ""); simpl; split;
    congruence.
Qed.

(** ** [add] *)

Section AddFacts.
Variable dedupe : bool.
Implicit Types (acc : accumulator) (key k val : string).

Lemma add_empty_key val acc : add dedupe "" val acc = acc.
Proof. reflexivity. Qed.

Lemma Map_get_add_same key val acc :
  key <> "" ->
  Map_get key (add dedupe key val acc) =
  Some (match Map_get key acc with
        | Some list =>
            if dedupe && includes list val then list else list ++ [val]
        | None => [val]
        end).
Proof.
  intros Hkey. unfold add.
  apply truthy_nonempty in Hkey. rewrite Hkey. simpl.
  destruct (Map_get key acc) as [list|] eqn:E.
  - destruct dedupe, (includes list val); simpl;
      first [exact E | apply Map_get_set_same].
  - apply Map_get_set_same.
Qed.

Lemma Map_get_add_other key k val acc :
  k <> key -> Map_get key (add dedupe k val acc) = Map_get key acc.
Proof.
  intros Hne. unfold add. destruct (negb (truthy k)); [reflexivity|].
  destruct (Map_get k acc) as [list|].
  - destruct (negb dedupe || negb (includes list val));
      [now apply Map_get_set_other | reflexivity].
  - now apply Map_get_set_other.
Qed.

Lemma keys_add key val acc :
  keys (add dedupe key val acc) =
  if truthy key && negb (includes (keys acc) key)
  then keys acc ++ [key] else keys acc.
Proof.
  unfold add. rewrite includes_keys.
  destruct (truthy key); simpl; [|reflexivity].
  destruct (Map_get key acc) as [list|] eqn:E; simpl.
  - destruct (negb dedupe || negb (includes list val)); [|reflexivity].
    apply keys_Map_set_present. congruence.
  - rewrite (Map_set_absent _ _ _ E). unfold keys.
    now rewrite map_app.
Qed.
End AddFacts.

(** ** First occurrences *)

Lemma In_first_occurrences l x : In x (first_occurrences l) <-> In x l.
Proof.
  induction l as [|a l IH]; simpl; [tauto|].
  rewrite filter_In, IH.
  destruct (String.eqb_spec x a) as [->|Hne]; simpl.
  - tauto.
  - split; [tauto|]. intros [->|H]; [congruence | auto].
Qed.

Lemma NoDup_first_occurrences l : NoDup (first_occurrences l).
Proof.
  induction l as [|a l IH]; simpl; constructor.
  - rewrite filter_In, String.eqb_refl. simpl. intros [_ [=]].
  - now apply NoDup_filter.
Qed.

Lemma includes_first_occurrences l x :
  includes (first_occurrences l) x = includes l x.
Proof.
  apply eq_true_iff_eq. rewrite !includes_In. apply In_first_occurrences.
Qed.

Lemma first_occurrences_snoc l x :
  first_occurrences (l ++ [x]) =
  if includes l x then first_occurrences l else first_occurrences l ++ [x].
Proof.
  induction l as [|a l IH]; [reflexivity|].
  rewrite <- app_comm_cons. cbn [first_occurrences].
  rewrite IH, includes_cons.
  destruct (includes l x).
  - now rewrite orb_true_r.
  - rewrite orb_false_r, filter_app. cbn [filter].
    destruct (x =? a); cbn [negb]; [now rewrite app_nil_r | reflexivity].
Qed.

Lemma first_occurrences_NoDup l : NoDup l -> first_occurrences l = l.
Proof.
  induction 1 as [|a l Hnotin Hnd IH]; simpl; [reflexivity|].
  rewrite IH. f_equal. apply forallb_filter_id, forallb_forall.
  intros y Hy. destruct (String.eqb_spec y a); [now subst | reflexivity].
Qed.

Lemma sequence_of_snoc dedupe vs x :
  sequence_of dedupe (vs ++ [x]) =
  Some (if dedupe then first_occurrences (vs ++ [x]) else vs ++ [x]).
Proof. destruct vs; reflexivity. Qed.

(** ** What the accumulator holds after the walk *)

Lemma run_snoc {S : Type} (emit : string -> string -> S -> S) l c s :
  run emit (l ++ [c]) s = emit (fst c) (snd c) (run emit l s).
Proof. now rewrite run_app. Qed.

Lemma values_at_snoc key l c :
  values_at key (l ++ [c]) =
  values_at key l ++ (if fst c =? key then [snd c] else []).
Proof.
  unfold values_at. rewrite filter_app, map_app. simpl.
  now destruct (fst c =? key).
Qed.

(** Each path holds the values passed for it, in order; with [dedupe],
    the first occurrence of each. *)
Theorem accumulated_values dedupe l key :
  key <> "" ->
  Map_get key (run (add dedupe) l []) = sequence_of dedupe (values_at key l).
Proof.
  intros Hkey. induction l as [|c l IH] using rev_ind; [reflexivity|].
  rewrite run_snoc, values_at_snoc.
  destruct (String.eqb_spec (fst c) key) as [Heq|Hne].
  - rewrite Heq, (Map_get_add_same _ _ _ _ Hkey), IH, sequence_of_snoc.
    destruct (values_at key l) as [|v0 vs]; [now destruct dedupe|].
    unfold sequence_of. set (seen := v0 :: vs).
    destruct dedupe; [|reflexivity]. cbn [andb].
    now rewrite first_occurrences_snoc, includes_first_occurrences.
  - rewrite (Map_get_add_other _ _ _ _ _ Hne), app_nil_r. exact IH.
Qed.

(** The accumulator lists the paths in discovery order. *)
Theorem keys_accumulated dedupe l :
  keys (run (add dedupe) l []) = discovery_order l.
Proof.
  unfold discovery_order.
  induction l as [|c l IH] using rev_ind; [reflexivity|].
  rewrite run_snoc, keys_add, IH, map_app, filter_app. simpl.
  destruct (truthy (fst c)); simpl.
  - rewrite first_occurrences_snoc, includes_first_occurrences.
    now destruct (includes (filter truthy (map fst l)) (fst c)).
  - now rewrite app_nil_r.
Qed.

Lemma discovery_order_nonempty l k : In k (discovery_order l) -> k <> "".
Proof.
  unfold discovery_order. rewrite In_first_occurrences, filter_In.
  intros [_ H]. now apply truthy_nonempty.
Qed.

Lemma NoDup_discovery_order l : NoDup (discovery_order l).
Proof. apply NoDup_first_occurrences. Qed.

(** ** Sorting the entries *)

Lemma string_lt_OT a b : string_lt a b <-> String_as_OT.lt a b.
Proof.
  unfold string_lt, String.ltb. rewrite <- String_as_OT.cmp_lt.
  unfold String_as_OT.cmp. destruct (a ?= b)%string; split; congruence.
Qed.

Lemma string_lt_trans a b c : string_lt a b -> string_lt b c -> string_lt a c.
Proof. rewrite !string_lt_OT. apply String_as_OT.lt_trans. Qed.

Lemma string_lt_irrefl a : ~ string_lt a a.
Proof.
  rewrite string_lt_OT. intros H.
  exact (String_as_OT.lt_not_eq a a H eq_refl).
Qed.

Lemma string_lt_total a b : string_lt a b \/ a = b \/ string_lt b a.
Proof.
  unfold string_lt, String.ltb.
  rewrite (String.compare_antisym b a).
  destruct (a ?= b)%string eqn:E; simpl; auto.
  right. left. now apply String.compare_eq_iff.
Qed.

Lemma compare_keys_Gt x y : compare_keys x y = Gt -> key_lt y x.
Proof.
  unfold compare_keys, key_lt, string_lt.
  destruct (fst x <? fst y)%string; [discriminate|].
  destruct (fst y <? fst x)%string; [reflexivity | discriminate].
Qed.

Lemma compare_keys_not_Gt x y :
  compare_keys x y <> Gt -> fst x <> fst y -> key_lt x y.
Proof.
  unfold compare_keys, key_lt. intros H Hne.
  destruct (string_lt_total (fst x) (fst y)) as [Hlt|[Heq|Hgt]];
    [exact Hlt | contradiction |].
  exfalso. apply H. unfold string_lt in Hgt. rewrite Hgt.
  destruct (fst x <? fst y)%string eqn:E; [|reflexivity].
  exfalso. apply (string_lt_irrefl (fst x)).
  now apply string_lt_trans with (fst y).
Qed.

Lemma sort_insert_perm x l : Permutation (sort_insert x l) (x :: l).
Proof.
  induction l as [|y l IH]; simpl; [reflexivity|].
  destruct (compare_keys x y); try reflexivity.
  rewrite IH. apply perm_swap.
Qed.

Lemma sort_perm es : Permutation (sort es) es.
Proof.
  induction es as [|x es IH]; simpl; [reflexivity|].
  rewrite sort_insert_perm. now constructor.
Qed.

Lemma sort_insert_sorted x l :
  StronglySorted key_lt l -> ~ In (fst x) (keys l) ->
  StronglySorted key_lt (sort_insert x l).
Proof.
  induction l as [|y l IH]; simpl; intros Hs Hx.
  - repeat constructor.
  - apply StronglySorted_inv in Hs. destruct Hs as [Hs Hy].
    destruct (compare_keys x y) eqn:E.
    1,2: assert (Hxy : key_lt x y)
      by (apply compare_keys_not_Gt;
          [congruence | intros F; apply Hx; now left]).
    1,2: constructor; [now constructor|]; constructor; [exact Hxy|];
      eapply Forall_impl; [|exact Hy]; intros z Hz;
      unfold key_lt in *; now apply string_lt_trans with (fst y).
    constructor.
    + apply IH; [exact Hs | tauto].
    + rewrite sort_insert_perm. constructor; [|exact Hy].
      now apply compare_keys_Gt.
Qed.

Lemma sort_sorted es : NoDup (keys es) -> StronglySorted key_lt (sort es).
Proof.
  induction es as [|x es IH]; simpl; intros Hnd; [constructor|].
  inversion Hnd as [|? ? Hnotin Hnd']; subst.
  apply sort_insert_sorted; [now apply IH|].
  intros Hin. apply Hnotin.
  unfold keys in *. now rewrite (Permutation_map fst (sort_perm es)) in Hin.
Qed.

Lemma StronglySorted_keys es :
  StronglySorted key_lt es -> StronglySorted string_lt (keys es).
Proof.
  induction 1 as [|x es Hs IH Hx]; simpl; constructor; [exact IH|].
  unfold keys. rewrite Forall_map. exact Hx.
Qed.

(** ** The returned object *)

Lemma filter_partition_perm {A : Type} (p : A -> bool) l :
  Permutation (filter p l ++ filter (fun x => negb (p x)) l) l.
Proof.
  induction l as [|x l IH]; simpl; [reflexivity|].
  destruct (p x); simpl.
  - now constructor.
  - rewrite <- Permutation_middle. now constructor.
Qed.

Lemma insert_index_spec n k v idx rest :
  array_index k = Some n ->
  Forall (fun e => indexed e = true) idx ->
  Forall (fun e => named e = true) rest ->
  exists idx',
    insert_index n k v (idx ++ rest) = idx' ++ rest
    /\ Permutation idx' ((k, v) :: idx)
    /\ (StronglySorted entry_index_le idx ->
        StronglySorted entry_index_le idx').
Proof.
  intros Hk Hidx Hrest. induction Hidx as [|[k1 v1] idx H1 Hidx IH].
  - exists [(k, v)]. split; [|split; [reflexivity | repeat constructor]].
    destruct Hrest as [|[k' v'] rest Hk' Hrest]; [reflexivity|].
    unfold named, is_array_index in Hk'. simpl in *.
    now destruct (array_index k').
  - destruct IH as (idx' & Heq & Hperm & Hsorted).
    unfold indexed, is_array_index in H1. simpl in H1 |- *.
    destruct (array_index k1) as [n1|] eqn:E1; [|discriminate].
    destruct (N.ltb_spec n n1) as [Hlt|Hge].
    + exists ((k, v) :: (k1, v1) :: idx).
      split; [reflexivity|]. split; [reflexivity|].
      intros Hs. constructor; [exact Hs|].
      apply StronglySorted_inv in Hs. destruct Hs as [_ Hall].
      assert (H0 : entry_index_le (k, v) (k1, v1))
        by (unfold entry_index_le, index_le; simpl; rewrite Hk, E1; lia).
      constructor; [exact H0|].
      eapply Forall_impl; [|exact Hall]. intros [k2 v2].
      unfold entry_index_le, index_le. simpl. rewrite Hk, E1.
      destruct (array_index k2); [lia | tauto].
    + exists ((k1, v1) :: idx').
      split; [now rewrite Heq|].
      split; [rewrite Hperm; apply perm_swap|].
      intros Hs. apply StronglySorted_inv in Hs. destruct Hs as [Hs Hall].
      constructor; [now apply Hsorted|].
      rewrite Hperm. constructor; [|exact Hall].
      unfold entry_index_le, index_le. simpl. rewrite Hk, E1. lia.
Qed.

Lemma fold_define_property es :
  forall pre idx,
    NoDup (keys (pre ++ es)) ->
    Permutation idx (filter indexed pre) ->
    StronglySorted entry_index_le idx ->
    exists idx',
      fold_left define_property es (idx ++ filter named pre) =
      idx' ++ filter named (pre ++ es)
      /\ Permutation idx' (filter indexed (pre ++ es))
      /\ StronglySorted entry_index_le idx'.
Proof.
  induction es as [|[k v] es IH]; intros pre idx Hnd Hperm Hs.
  - exists idx. now rewrite !app_nil_r.
  - replace (pre ++ (k, v) :: es) with ((pre ++ [(k, v)]) ++ es) in *
      by now rewrite <- app_assoc.
    assert (Hfresh : Map_get k (idx ++ filter named pre) = None).
    { apply Map_get_None. intros Hin.
      unfold keys in Hnd. rewrite !map_app in Hnd.
      apply NoDup_app_remove_r in Hnd.
      apply NoDup_remove_2 in Hnd. rewrite app_nil_r in Hnd. apply Hnd.
      unfold keys in Hin. rewrite map_app, in_app_iff in Hin.
      destruct Hin as [Hin|Hin]; apply in_map_iff in Hin;
        destruct Hin as (e & He & Hin); subst k; apply (in_map fst pre e).
      - rewrite Hperm in Hin. apply filter_In in Hin. tauto.
      - apply filter_In in Hin. tauto. }
    assert (Hidx : Forall (fun e => indexed e = true) idx).
    { rewrite Hperm. apply Forall_forall. intros e He.
      now apply filter_In in He. }
    assert (Hnamed : Forall (fun e => named e = true) (filter named pre)).
    { apply Forall_forall. intros e He. now apply filter_In in He. }
    cbn [fold_left]. unfold define_property at 2. rewrite Hfresh.
    destruct (array_index k) as [n|] eqn:Ek.
    + destruct (insert_index_spec n k v idx _ Ek Hidx Hnamed)
        as (idx1 & Heq & Hperm1 & Hs1).
      rewrite Heq.
      replace (filter named pre) with (filter named (pre ++ [(k, v)])).
      * apply IH; [exact Hnd | | now apply Hs1].
        rewrite Hperm1, filter_app. cbn [filter].
        unfold indexed at 2, is_array_index. cbn [fst]. rewrite Ek.
        rewrite Hperm. apply Permutation_cons_append.
      * rewrite filter_app. cbn [filter].
        unfold named at 2, is_array_index. cbn [fst]. rewrite Ek.
        apply app_nil_r.
    + replace ((idx ++ filter named pre) ++ [(k, v)])
        with (idx ++ filter named (pre ++ [(k, v)])).
      * apply IH; [exact Hnd | | exact Hs].
        rewrite filter_app. cbn [filter].
        unfold indexed at 2, is_array_index. cbn [fst]. rewrite Ek.
        now rewrite app_nil_r.
      * rewrite filter_app. cbn [filter].
        unfold named at 2, is_array_index. cbn [fst]. rewrite Ek.
        cbn [negb]. now rewrite app_assoc.
Qed.

(** The object lists its array-index properties first, in ascending order
    of index, and then the others in the order of the entries. *)
Theorem Object_fromEntries_shape es :
  NoDup (keys es) ->
  exists idx,
    Object_fromEntries es = idx ++ filter named es
    /\ Permutation idx (filter indexed es)
    /\ StronglySorted entry_index_le idx.
Proof.
  intros Hnd.
  apply (fold_define_property es [] []);
    [exact Hnd | reflexivity | constructor].
Qed.

Lemma Object_fromEntries_perm es :
  NoDup (keys es) -> Permutation (Object_fromEntries es) es.
Proof.
  intros Hnd.
  destruct (Object_fromEntries_shape es Hnd) as (idx & -> & Hperm & _).
  rewrite Hperm. apply filter_partition_perm.
Qed.

Lemma Object_fromEntries_named es :
  NoDup (keys es) ->
  Forall (fun k => array_index k = None) (keys es) ->
  Object_fromEntries es = es.
Proof.
  intros Hnd Hall.
  destruct (Object_fromEntries_shape es Hnd) as (idx & -> & Hperm & _).
  assert (Hfilter : forall p : string * string -> bool,
             (forall e, In e es -> p e = true) -> filter p es = es).
  { intros p Hp. apply forallb_filter_id, forallb_forall. exact Hp. }
  assert (Hnone : filter indexed es = []).
  { destruct (filter indexed es) as [|e r] eqn:E; [reflexivity|].
    assert (He : In e (filter indexed es)) by (rewrite E; now left).
    apply filter_In in He. destruct He as [He Hi].
    rewrite Forall_forall in Hall.
    unfold indexed, is_array_index in Hi.
    rewrite (Hall (fst e)) in Hi; [discriminate | now apply in_map]. }
  rewrite Hnone in Hperm. apply Permutation_sym, Permutation_nil in Hperm.
  subst idx.
  simpl. apply Hfilter. intros e He.
  rewrite Forall_forall in Hall. unfold named, is_array_index.
  now rewrite (Hall (fst e)) by now apply in_map.
Qed.

(** ** [flattenToKeyValue] in terms of the calls to [add] *)

Lemma flattenToKeyValue_calls input opts :
  flattenToKeyValue input opts =
  l <- calls_of input opts ;; Normal (Object_fromEntries (entries_of opts l)).
Proof.
  unfold flattenToKeyValue, calls_of. rewrite walk_replay.
  now destruct (calls _ _ input "").
Qed.

Lemma flattenToKeyValue_Normal input opts out :
  flattenToKeyValue input opts = Normal out ->
  exists l, calls_of input opts = Normal l
            /\ out = Object_fromEntries (entries_of opts l).
Proof.
  rewrite flattenToKeyValue_calls.
  destruct (calls_of input opts) as [l|e]; simpl; [|discriminate].
  intros [= <-]. now exists l.
Qed.

Lemma keys_joined joiner_ (acc : accumulator) :
  keys (map (fun e => (fst e, join joiner_ (snd e))) acc) = keys acc.
Proof. unfold keys. rewrite map_map. reflexivity. Qed.

Lemma keys_entries_of_perm opts l :
  Permutation (keys (entries_of opts l)) (discovery_order l).
Proof.
  unfold entries_of. rewrite <- (keys_accumulated (dedupe_of opts)).
  rewrite <- (keys_joined (joiner_of opts)).
  destruct (sortKeys_of opts); [|reflexivity].
  unfold keys. apply Permutation_map, sort_perm.
Qed.

Lemma NoDup_keys_entries_of opts l : NoDup (keys (entries_of opts l)).
Proof.
  eapply Permutation_NoDup;
    [symmetry; apply keys_entries_of_perm | apply NoDup_discovery_order].
Qed.

Lemma keys_entries_of_unsorted opts l :
  sortKeys_of opts = false -> keys (entries_of opts l) = discovery_order l.
Proof.
  intros H. unfold entries_of. rewrite H, keys_joined.
  apply keys_accumulated.
Qed.

Lemma keys_entries_of_sorted opts l :
  sortKeys_of opts = true ->
  StronglySorted string_lt (keys (entries_of opts l)).
Proof.
  intros H. unfold entries_of. rewrite H.
  apply StronglySorted_keys, sort_sorted.
  rewrite keys_joined, keys_accumulated. apply NoDup_discovery_order.
Qed.

Lemma In_entries_of opts l key v :
  In (key, v) (entries_of opts l) ->
  exists vs, sequence_of (dedupe_of opts) (values_at key l) = Some vs
             /\ v = join (joiner_of opts) vs.
Proof.
  intros Hin.
  assert (Hin' : In (key, v)
                    (map (fun e => (fst e, join (joiner_of opts) (snd e)))
                         (run (add (dedupe_of opts)) l []))).
  { unfold entries_of in Hin. destruct (sortKeys_of opts); [|exact Hin].
    eapply Permutation_in; [apply sort_perm | exact Hin]. }
  apply in_map_iff in Hin'. destruct Hin' as ([k vs] & [= <- <-] & He).
  exists vs. split; [|reflexivity]. simpl.
  assert (Hk : In k (discovery_order l)).
  { rewrite <- (keys_accumulated (dedupe_of opts)).
    change k with (fst (k, vs)). now apply in_map. }
  rewrite <- (accumulated_values _ _ _ (discovery_order_nonempty _ _ Hk)).
  apply In_Map_get; [|exact He].
  rewrite keys_accumulated. apply NoDup_discovery_order.
Qed.

(** ** Arrays add no path segment *)

Lemma for_of_map {A B S : Type} (f : A -> B) (body : B -> S -> completion S)
      l s :
  for_of body (map f l) s = for_of (fun x => body (f x)) l s.
Proof.
  revert s. induction l as [|x l IH]; intros s; [reflexivity|].
  simpl map. rewrite !for_of_cons.
  destruct (body (f x) s); simpl; [apply IH | reflexivity].
Qed.

Lemma for_of_invariant {A S : Type} (Q : S -> Prop)
      (body : A -> S -> completion S) items :
  (forall x, In x items -> forall s s', body x s = Normal s' -> Q s -> Q s') ->
  forall s s', for_of body items s = Normal s' -> Q s -> Q s'.
Proof.
  induction items as [|x rest IH]; intros H s s'.
  - intros [= <-]. tauto.
  - rewrite for_of_cons. destruct (body x s) as [s1|e] eqn:E; simpl;
      [|discriminate].
    intros Hrest Hs. apply (IH (fun y Hy => H y (or_intror Hy)) s1 s' Hrest).
    apply (H x (or_introl eq_refl) s s1 E Hs).
Qed.

Section WalkShape.
Variables (delimiter_ : string) (includeNullUndefined_ : bool).
Context {S : Type} (emit : string -> string -> S -> S).

(** On an array of primitives the two loops of [walk] do the same. *)
Lemma walk_scalar_item path items :
  forallb isPrimitive items = true ->
  forall s,
    for_of (walk_scalar includeNullUndefined_ emit path) items s =
    for_of (walk_item delimiter_ includeNullUndefined_ emit path) items s.
Proof.
  intros Hall. apply for_of_ext. intros x Hx s.
  rewrite forallb_forall in Hall. specialize (Hall x Hx).
  destruct x as [v| |]; try discriminate.
  unfold walk_item, walk_scalar. now rewrite Hall.
Qed.

Lemma walk_Array_items items path s :
  walk delimiter_ includeNullUndefined_ emit (Array items) path s
  = for_of (walk_item delimiter_ includeNullUndefined_ emit path) items s.
Proof.
  rewrite walk_Array.
  destruct (forallb isPrimitive items) eqn:E; [|reflexivity].
  now apply walk_scalar_item.
Qed.

(** Every element of an array of objects is walked at the path of the
    array: the index of the element plays no part. *)
Lemma walk_array_of_objects ess path s :
  walk delimiter_ includeNullUndefined_ emit (Array (map Object ess)) path s =
  for_of (fun entries =>
            walk delimiter_ includeNullUndefined_ emit (Object entries) path)
         ess s.
Proof. rewrite walk_Array_items. apply for_of_map. Qed.

(** An array met as an element of an array is walked as if its elements
    stood in its place. *)
Lemma walk_array_splice pre xs post path s :
  walk delimiter_ includeNullUndefined_ emit
       (Array (pre ++ Array xs :: post)) path s
  = walk delimiter_ includeNullUndefined_ emit
         (Array (pre ++ xs ++ post)) path s.
Proof.
  rewrite !walk_Array_items, !for_of_app.
  destruct (for_of _ pre s) as [s1|e]; cbn [bind]; [|reflexivity].
  rewrite for_of_cons, for_of_app. unfold walk_item at 1.
  now rewrite walk_Array_items.
Qed.

(** Nested arrays are walked as their concatenation. *)
Lemma walk_array_of_arrays xss path s :
  walk delimiter_ includeNullUndefined_ emit (Array (map Array xss)) path s
  = walk delimiter_ includeNullUndefined_ emit (Array (concat xss)) path s.
Proof.
  rewrite !walk_Array_items, for_of_map, for_of_concat.
  apply for_of_ext. intros xs _ s'.
  apply (walk_Array_items xs path s').
Qed.

(** The calls to [add] are made at the paths of the field-name chains
    of the value. *)
Lemma walk_chains (Q : S -> Prop) (ok : list string -> Prop) root :
  (forall names v s,
      ok names -> Q s -> Q (emit (extend delimiter_ root names) v s)) ->
  forall val prefix s s',
    (forall c, In c (chains val) -> ok (prefix ++ c)) ->
    walk delimiter_ includeNullUndefined_ emit val
         (extend delimiter_ root prefix) s = Normal s' ->
    Q s -> Q s'.
Proof.
  intros Hemit.
  induction val as [v|items IH|entries IH] using value_induction;
    intros prefix s s' Hok.
  - rewrite walk_Leaf. unfold emit_leaf.
    specialize (Hok [] (or_introl eq_refl)). rewrite app_nil_r in Hok.
    destruct (toStr includeNullUndefined_ v) as [[x|]|e]; simpl;
      try discriminate; intros [= <-]; auto.
  - rewrite walk_Array_items. apply for_of_invariant.
    intros x Hx s1 s2. rewrite Forall_forall in IH.
    assert (Hokx : forall c, In c (chains x) -> ok (prefix ++ c)).
    { intros c Hc. apply Hok. simpl. apply in_flat_map. now exists x. }
    specialize (IH x Hx prefix s1 s2 Hokx).
    destruct x as [v|l|es]; unfold walk_item; try exact IH.
    destruct (isPrimitive v || instanceof_Date v); [exact IH|].
    intros [= <-]. tauto.
  - rewrite walk_Object. apply for_of_invariant.
    intros [k v] Hx s1 s2. rewrite Forall_forall in IH.
    specialize (IH (k, v) Hx (prefix ++ [k]) s1 s2).
    unfold walk_field. simpl fst. simpl snd.
    unfold extend in IH. rewrite fold_left_app in IH. apply IH.
    intros c Hc. rewrite <- app_assoc. apply Hok. simpl.
    apply in_flat_map. exists (k, v). split; [exact Hx|].
    simpl. now apply in_map.
Qed.
End WalkShape.

Lemma calls_chains delimiter_ includeNullUndefined_ val path l :
  calls delimiter_ includeNullUndefined_ val path = Normal l ->
  Forall (fun c => exists names,
              In names (chains val)
              /\ fst c = extend delimiter_ path names) l.
Proof.
  intros H.
  apply (walk_chains delimiter_ includeNullUndefined_ record
           (Forall (fun c => exists names,
                        In names (chains val)
                        /\ fst c = extend delimiter_ path names))
           (fun names => In names (chains val))
           path) with (val := val) (prefix := []) (s := []);
    [| tauto | exact H | constructor].
  intros names v s Hn Hs. unfold record. apply Forall_app. split; [exact Hs|].
  constructor; [now exists names | constructor].
Qed.

(** The log of an array whose elements are arrays or objects is made of
    the logs of its elements, each walked at the path of the array, in
    element order. *)
Lemma calls_for_of delimiter_ includeNullUndefined_ path items :
  forall l0 l,
    for_of (fun x => walk delimiter_ includeNullUndefined_ record x path)
           items l0 = Normal l ->
    exists ls,
      Forall2 (fun x lx =>
                 calls delimiter_ includeNullUndefined_ x path = Normal lx)
              items ls
      /\ l = l0 ++ concat ls.
Proof.
  induction items as [|x rest IH]; intros l0 l.
  - intros [= <-]. exists []. split; [constructor | now rewrite app_nil_r].
  - rewrite for_of_cons, walk_replay.
    destruct (calls delimiter_ includeNullUndefined_ x path) as [lx|e] eqn:E;
      simpl; [|discriminate].
    intros H. apply IH in H. destruct H as (ls & Hls & ->).
    exists (lx :: ls). split; [now constructor|].
    simpl. now rewrite run_record, app_assoc.
Qed.

(** ** Termination and exceptions *)

Lemma toStr_returns includeNullUndefined_ v :
  has_invalid_date (Leaf v) = false ->
  exists r, toStr includeNullUndefined_ v = Normal r.
Proof.
  intros Hv. destruct v as [| | | | | |[iso|]|f|d];
    try (eexists; reflexivity); [discriminate|].
  unfold toStr, JSON_stringify_function, try_catch.
  destruct (toJSON f) as [[r|e]|]; eexists; reflexivity.
Qed.

Lemma for_of_returns {A S : Type} (body : A -> S -> completion S) items :
  (forall x, In x items -> forall s, exists s', body x s = Normal s') ->
  forall s, exists s', for_of body items s = Normal s'.
Proof.
  induction items as [|x rest IH]; intros H s.
  - now exists s.
  - rewrite for_of_cons.
    destruct (H x (or_introl eq_refl) s) as [s1 ->]. simpl.
    apply IH. intros y Hy. apply H. now right.
Qed.

(** The walk is structurally recursive, hence terminates; it returns
    normally on every input that holds no Invalid Date. *)
Lemma walk_returns delimiter_ includeNullUndefined_ val :
  has_invalid_date val = false ->
  forall {S : Type} (emit : string -> string -> S -> S) path s,
    exists s',
      walk delimiter_ includeNullUndefined_ emit val path s = Normal s'.
Proof.
  induction val as [v|items IH|entries IH] using value_induction;
    intros Hval S emit path s.
  - rewrite walk_Leaf. unfold emit_leaf.
    destruct (toStr_returns includeNullUndefined_ v Hval) as [r ->].
    eexists. reflexivity.
  - rewrite walk_Array_items. apply for_of_returns.
    intros x Hx s1. rewrite Forall_forall in IH.
    assert (Hx' : has_invalid_date x = false).
    { simpl in Hval. destruct (has_invalid_date x) eqn:E; [|reflexivity].
      rewrite <- Hval. symmetry. apply existsb_exists. now exists x. }
    specialize (IH x Hx Hx' S emit path s1).
    destruct x as [v|l|es]; unfold walk_item; try exact IH.
    destruct (isPrimitive v || instanceof_Date v); [exact IH|].
    now exists s1.
  - rewrite walk_Object. apply for_of_returns.
    intros x Hx s1. rewrite Forall_forall in IH. apply (IH x Hx).
    simpl in Hval. destruct (has_invalid_date (snd x)) eqn:E; [|reflexivity].
    rewrite <- Hval. symmetry. apply existsb_exists. now exists x.
Qed.

Lemma flattenToKeyValue_returns input opts :
  has_invalid_date input = false ->
  exists out, flattenToKeyValue input opts = Normal out.
Proof.
  intros H. unfold flattenToKeyValue.
  destruct (walk_returns (nullish (delimiter opts) ".")
              (nullish (includeNullUndefined opts) false) input H
              (add (nullish (dedupeArrayValues opts) false)) "" [])
    as [acc ->].
  eexists. reflexivity.
Qed.

Lemma toStr_throws includeNullUndefined_ v e :
  toStr includeNullUndefined_ v = Throw e ->
  v = Date InvalidDate /\ e = RangeError.
Proof.
  destruct v as [| | | | | |[iso|]|f|d]; simpl; try discriminate.
  - intros [= <-]. now split.
  - unfold JSON_stringify_function, try_catch.
    destruct (toJSON f) as [[r|e']|]; discriminate.
Qed.

Lemma for_of_throws {A S : Type} (body : A -> S -> completion S) items :
  forall s e,
    for_of body items s = Throw e ->
    exists x s1, In x items /\ body x s1 = Throw e.
Proof.
  induction items as [|x rest IH]; intros s e; [discriminate|].
  rewrite for_of_cons. destruct (body x s) as [s1|e1] eqn:E; simpl.
  - intros H. destruct (IH _ _ H) as (y & s2 & Hy & Hbody).
    exists y, s2. split; [now right | exact Hbody].
  - intros [= <-]. exists x, s. split; [now left | exact E].
Qed.

(** Nothing but [toISOString] on an Invalid Date throws. *)
Lemma walk_throws delimiter_ includeNullUndefined_ val :
  forall {S : Type} (emit : string -> string -> S -> S) path s e,
    walk delimiter_ includeNullUndefined_ emit val path s = Throw e ->
    e = RangeError.
Proof.
  induction val as [v|items IH|entries IH] using value_induction;
    intros S emit path s e.
  - rewrite walk_Leaf. unfold emit_leaf.
    destruct (toStr includeNullUndefined_ v) as [r|e'] eqn:E; simpl;
      [discriminate|].
    intros [= <-]. now apply toStr_throws in E.
  - rewrite walk_Array_items. intros H.
    apply for_of_throws in H. destruct H as (x & s1 & Hx & H).
    rewrite Forall_forall in IH. specialize (IH x Hx S emit path s1 e).
    destruct x as [v|l|es]; unfold walk_item in H; try (now apply IH).
    destruct (isPrimitive v || instanceof_Date v);
      [now apply IH | discriminate].
  - rewrite walk_Object. intros H.
    apply for_of_throws in H. destruct H as (x & s1 & Hx & H).
    rewrite Forall_forall in IH. exact (IH x Hx S emit _ s1 e H).
Qed.

Lemma for_of_throws_at {A S : Type} (body : A -> S -> completion S) items x :
  In x items ->
  (forall s, body x s = Throw RangeError) ->
  (forall y s e, In y items -> body y s = Throw e -> e = RangeError) ->
  forall s, for_of body items s = Throw RangeError.
Proof.
  intros Hx Hthrow Honly. induction items as [|y rest IH]; intros s;
    [contradiction|].
  rewrite for_of_cons. destruct (body y s) as [s1|e] eqn:E; simpl.
  - destruct Hx as [->|Hx]; [now rewrite Hthrow in E|].
    apply IH; [exact Hx|]. intros z s' e' Hz. apply Honly. now right.
  - f_equal. apply (Honly y s e); [now left | exact E].
Qed.

(** Every date of the input is stringified: an Invalid Date anywhere makes
    the walk throw. *)
Lemma walk_invalid_date delimiter_ includeNullUndefined_ val :
  has_invalid_date val = true ->
  forall {S : Type} (emit : string -> string -> S -> S) path s,
    walk delimiter_ includeNullUndefined_ emit val path s = Throw RangeError.
Proof.
  induction val as [v|items IH|entries IH] using value_induction;
    intros Hval S emit path s.
  - destruct v as [| | | | | |[iso|]|f|d]; try discriminate. reflexivity.
  - rewrite walk_Array_items. simpl in Hval.
    apply existsb_exists in Hval. destruct Hval as (x & Hx & Hinv).
    apply for_of_throws_at with (x := x); [exact Hx | |].
    + intros s1. rewrite Forall_forall in IH.
      specialize (IH x Hx Hinv S emit path s1).
      destruct x as [v|l|es]; unfold walk_item; try exact IH.
      destruct v as [| | | | | |[iso|]|f|d]; try discriminate. exact IH.
    + intros y s1 e _ H.
      apply (walk_throws delimiter_ includeNullUndefined_ y emit path s1).
      destruct y as [v|l|es]; unfold walk_item in H; try exact H.
      destruct (isPrimitive v || instanceof_Date v); [exact H | discriminate].
  - rewrite walk_Object. simpl in Hval.
    apply existsb_exists in Hval. destruct Hval as (x & Hx & Hinv).
    apply for_of_throws_at with (x := x); [exact Hx | |].
    + intros s1. rewrite Forall_forall in IH. apply (IH x Hx Hinv).
    + intros y s1 e _ H. exact (walk_throws _ _ _ _ _ _ _ H).
Qed.

(** [flattenToKeyValue] throws exactly on the inputs that hold an Invalid
    Date, and what it throws is the RangeError of [toISOString]. *)
Lemma flattenToKeyValue_completion input opts :
  match flattenToKeyValue input opts with
  | Normal _ => has_invalid_date input = false
  | Throw e => e = RangeError /\ has_invalid_date input = true
  end.
Proof.
  destruct (has_invalid_date input) eqn:E.
  - unfold flattenToKeyValue. rewrite (walk_invalid_date _ _ _ E). now split.
  - destruct (flattenToKeyValue_returns input opts E) as [out ->].
    reflexivity.
Qed.

(** * The documented behaviour *)

(** ** The test of the repository and the examples of the README *)

Example flattens_nested_objects :
  flattenToKeyValue
    (Object [("a", Object [("b", Object [("c", num 1)]); ("d", str "x")])])
    no_options
  = Normal [("a.b.c", "1"); ("a.d", "x")].
Proof. reflexivity. Qed.

Example readme_usage :
  flattenToKeyValue readme_input with_dedupe_and_sort
  = Normal [("purchases.qty", "1,2,3"); ("purchases.sku", "X,Y");
            ("tags", "a,b"); ("user.id", "1"); ("user.name", "Ann")].
Proof. reflexivity. Qed.

Example custom_delimiter :
  flattenToKeyValue (Object [("a", Object [("b", num 1)])]) (with_delimiter "/")
  = Normal [("a/b", "1")].
Proof. reflexivity. Qed.

Example custom_joiner :
  flattenToKeyValue (Object [("t", Array [str "x"; str "y"])]) (with_joiner "|")
  = Normal [("t", "x|y")].
Proof. reflexivity. Qed.

Example date_to_ISO_string :
  flattenToKeyValue
    (Object [("d", Leaf (Date (ValidDate "2025-01-02T03:04:05.000Z")))])
    no_options
  = Normal [("d", "2025-01-02T03:04:05.000Z")].
Proof. reflexivity. Qed.

Example key_sort :
  flattenToKeyValue (Object [("b", num 1); ("a", num 1)]) with_sortKeys
  = Normal [("a", "1"); ("b", "1")]
  /\ flattenToKeyValue (Object [("b", num 1); ("a", num 1)]) no_options
     = Normal [("b", "1"); ("a", "1")].
Proof. split; reflexivity. Qed.

(** ** Arrays of objects *)

(** C1: the elements of an array of plain objects are all walked at the
    path of the array, whatever their position, so that the calls to [add]
    are those of the first element, then those of the second, and so on,
    each made as if the element stood alone at that path; the same chain
    of field names therefore lands on the same key in element order.
    Flattening the purchases example with default options gives exactly
    ["purchases.sku": "X,Y,X"] and ["purchases.qty": "1,2,3"]. *)
Theorem array_of_objects_merges_paths :
  (forall delimiter_ includeNullUndefined_ ess path l,
      calls delimiter_ includeNullUndefined_ (Array (map Object ess)) path
      = Normal l ->
      exists ls,
        Forall2 (fun entries le =>
                   calls delimiter_ includeNullUndefined_ (Object entries) path
                   = Normal le) ess ls
        /\ l = concat ls)
  /\ (forall delimiter_ includeNullUndefined_ (S : Type)
             (emit : string -> string -> S -> S) ess path s,
         walk delimiter_ includeNullUndefined_ emit (Array (map Object ess))
              path s =
         for_of (fun entries =>
                   walk delimiter_ includeNullUndefined_ emit (Object entries)
                        path) ess s)
  /\ flattenToKeyValue purchases no_options =
     Normal [("purchases.sku", "X,Y,X"); ("purchases.qty", "1,2,3")].
Proof.
  split; [|split].
  - intros d i ess path l. unfold calls at 1.
    rewrite walk_array_of_objects. intros H.
    destruct (calls_for_of d i path (map Object ess) [] l) as (ls & Hls & ->).
    + now rewrite for_of_map.
    + exists ls. split; [|reflexivity].
      clear H. revert ls Hls.
      induction ess as [|es ess IH]; intros ls Hls; simpl in Hls;
        inversion Hls; subst; constructor; auto.
  - intros. apply walk_array_of_objects.
  - reflexivity.
Qed.

Lemma array_of_objects_merges_paths_witness :
  calls "." false
        (Array (map Object [[("sku", str "X")]; [("sku", str "Y")]])) "p"
  = Normal [("p.sku", "X"); ("p.sku", "Y")]
  /\ exists ls,
      Forall2 (fun entries le =>
                 calls "." false (Object entries) "p" = Normal le)
              [[("sku", str "X")]; [("sku", str "Y")]] ls
      /\ [("p.sku", "X"); ("p.sku", "Y")] = concat ls.
Proof.
  split; [reflexivity|].
  apply (proj1 array_of_objects_merges_paths "." false
               [[("sku", str "X")]; [("sku", str "Y")]] "p").
  reflexivity.
Defined.

(** ** Nested arrays *)

(** C5: an array position never becomes a path segment.  An array met
    as an element of an array is walked at the path of the enclosing array,
    exactly as if its elements stood in its place; every call to [add] is
    made at the path reached from the current one through a chain of
    object field names of the value; and flattening [{a: [[1, 2], [3]]}]
    gives ["a": "1,2,3"]. *)
Theorem arrays_add_no_path_segment :
  (forall delimiter_ includeNullUndefined_ (S : Type)
          (emit : string -> string -> S -> S) pre xs post path s,
      walk delimiter_ includeNullUndefined_ emit
           (Array (pre ++ Array xs :: post)) path s
      = walk delimiter_ includeNullUndefined_ emit
             (Array (pre ++ xs ++ post)) path s)
  /\ (forall delimiter_ includeNullUndefined_ val path l,
         calls delimiter_ includeNullUndefined_ val path = Normal l ->
         Forall (fun c => exists names,
                     In names (chains val)
                     /\ fst c = extend delimiter_ path names) l)
  /\ flattenToKeyValue
       (Object [("a", Array [Array [num 1; num 2]; Array [num 3]])])
       no_options
     = Normal [("a", "1,2,3")].
Proof.
  split; [|split].
  - intros. apply walk_array_splice.
  - intros. now apply (calls_chains _ includeNullUndefined_).
  - reflexivity.
Qed.

Lemma arrays_add_no_path_segment_witness :
  calls "." false (Object [("a", Array [Array [num 1]; Object [("b", num 2)]])])
        ""
  = Normal [("a", "1"); ("a.b", "2")]
  /\ Forall (fun c => exists names,
                 In names
                    (chains (Object [("a", Array [Array [num 1];
                                                  Object [("b", num 2)]])]))
                 /\ fst c = extend "." "" names)
            [("a", "1"); ("a.b", "2")].
Proof.
  split; [reflexivity|].
  apply (proj1 (proj2 arrays_add_no_path_segment) "." false
               (Object [("a", Array [Array [num 1]; Object [("b", num 2)]])])
               "").
  reflexivity.
Defined.

(** ** De-duplication *)

(** C6: with [dedupeArrayValues], [add] leaves the accumulator untouched
    exactly when the value already occurs in the sequence of the path, and
    appends it otherwise, so that the sequence of a path is the first
    occurrence of each value passed for it, in order; without the option
    the sequence is every value passed, in order.  Flattening
    [{tags: ["a", "b", "b"]}] gives ["tags": "a,b,b"] by default and
    ["tags": "a,b"] with the option. *)
Theorem dedupe_keeps_first_occurrences :
  (forall key val acc list,
      truthy key = true -> Map_get key acc = Some list ->
      add true key val acc =
      if includes list val then acc else Map_set key (list ++ [val]) acc)
  /\ (forall delimiter_ includeNullUndefined_ dedupe input l key,
         calls delimiter_ includeNullUndefined_ input "" = Normal l ->
         truthy key = true ->
         (acc <- walk delimiter_ includeNullUndefined_ (add dedupe) input
                      "" [] ;;
          Normal (Map_get key acc)) =
         Normal (sequence_of dedupe (values_at key l)))
  /\ flattenToKeyValue tags no_options = Normal [("tags", "a,b,b")]
  /\ flattenToKeyValue tags with_dedupeArrayValues = Normal [("tags", "a,b")].
Proof.
  split; [|split; [|split]]; try reflexivity.
  - intros key val acc list Hkey Hget. unfold add.
    rewrite Hkey, Hget. simpl.
    now destruct (includes list val).
  - intros d i dedupe input l key Hl Hkey.
    rewrite walk_replay, Hl. simpl. f_equal.
    now apply accumulated_values, truthy_nonempty.
Qed.

Lemma dedupe_keeps_first_occurrences_witness :
  add true "tags" "b" [("tags", ["a"; "b"])] = [("tags", ["a"; "b"])]
  /\ calls "." false tags ""
     = Normal [("tags", "a"); ("tags", "b"); ("tags", "b")]
  /\ (acc <- walk "." false (add true) tags "" [] ;;
      Normal (Map_get "tags" acc))
     = Normal (sequence_of true
                 (values_at "tags"
                    [("tags", "a"); ("tags", "b"); ("tags", "b")])).
Proof.
  split; [|split].
  - apply (proj1 dedupe_keeps_first_occurrences "tags" "b"
                 [("tags", ["a"; "b"])] ["a"; "b"]).
    + reflexivity.
    + reflexivity.
  - reflexivity.
  - apply (proj1 (proj2 dedupe_keeps_first_occurrences) "." false true tags
                 [("tags", "a"); ("tags", "b"); ("tags", "b")] "tags").
    + reflexivity.
    + reflexivity.
Defined.

(** ** The output builder *)

(** C2: every value of the returned object is the sequence accumulated for
    its key, joined by [joiner] (["," ] by default): the values passed to
    [add] for that key in call order, or the first occurrence of each when
    [dedupeArrayValues] is on. *)
Theorem output_value_is_joined_sequence input opts out key v :
  flattenToKeyValue input opts = Normal out ->
  Map_get key out = Some v ->
  exists l vs,
    calls_of input opts = Normal l
    /\ sequence_of (dedupe_of opts) (values_at key l) = Some vs
    /\ v = join (joiner_of opts) vs.
Proof.
  intros Hout Hget.
  destruct (flattenToKeyValue_Normal _ _ _ Hout) as (l & Hl & ->).
  apply Map_get_Some_In in Hget.
  apply (Permutation_in _ (Object_fromEntries_perm _
                             (NoDup_keys_entries_of opts l))) in Hget.
  destruct (In_entries_of _ _ _ _ Hget) as (vs & Hvs & ->).
  now exists l, vs.
Qed.

Lemma output_value_is_joined_sequence_witness :
  exists l vs,
    calls_of purchases with_dedupeArrayValues = Normal l
    /\ sequence_of true (values_at "purchases.sku" l) = Some vs
    /\ "X,Y" = join "," vs.
Proof.
  apply (output_value_is_joined_sequence purchases with_dedupeArrayValues
           [("purchases.sku", "X,Y"); ("purchases.qty", "1,2,3")]
           "purchases.sku" "X,Y"); reflexivity.
Defined.

Lemma flattenToKeyValue_Leaf v opts :
  has_invalid_date (Leaf v) = false ->
  flattenToKeyValue (Leaf v) opts = Normal [].
Proof.
  intros Hv. unfold flattenToKeyValue. rewrite walk_Leaf.
  unfold emit_leaf.
  destruct (toStr_returns (nullish (includeNullUndefined opts) false) v Hv)
    as [[x|] ->]; simpl; now destruct (nullish (sortKeys opts) false).
Qed.

(** Every key of the returned object is a non-empty string, and a bare
    top-level leaf other than the Invalid Date gives the empty object, its
    one call to [add] being made with the empty path. *)
Theorem output_keys_nonempty :
  (forall input opts out,
      flattenToKeyValue input opts = Normal out ->
      Forall (fun key => key <> "") (keys out))
  /\ (forall v opts,
         has_invalid_date (Leaf v) = false ->
         flattenToKeyValue (Leaf v) opts = Normal [])
  /\ flattenToKeyValue (num 42) no_options = Normal [].
Proof.
  split; [|split; [|reflexivity]].
  - intros input opts out Hout.
    destruct (flattenToKeyValue_Normal _ _ _ Hout) as (l & Hl & ->).
    apply Forall_forall. intros key Hkey.
    apply (discovery_order_nonempty l).
    eapply Permutation_in; [apply keys_entries_of_perm|].
    eapply Permutation_in; [|exact Hkey].
    unfold keys. apply Permutation_map, Object_fromEntries_perm.
    apply NoDup_keys_entries_of.
  - apply flattenToKeyValue_Leaf.
Qed.

Lemma output_keys_nonempty_witness :
  Forall (fun key => key <> "") ["purchases.sku"; "purchases.qty"]
  /\ flattenToKeyValue (Leaf (Symbol "id")) with_sortKeys = Normal [].
Proof.
  split.
  - apply (proj1 output_keys_nonempty purchases no_options
                 [("purchases.sku", "X,Y,X"); ("purchases.qty", "1,2,3")]).
    reflexivity.
  - apply (proj1 (proj2 output_keys_nonempty) (Symbol "id") with_sortKeys).
    reflexivity.
Defined.

(** C8: every key of the returned object is non-empty and [42] flattens
    to [{}], but a bare top-level date does not always give the empty
    object: on the Invalid Date [flattenToKeyValue] throws the RangeError
    of [toISOString] before [add] is reached. *)
Theorem top_level_date_may_raise :
  (forall opts,
      flattenToKeyValue (Leaf (Date InvalidDate)) opts = Throw RangeError)
  /\ (forall opts iso,
         flattenToKeyValue (Leaf (Date (ValidDate iso))) opts = Normal [])
  /\ flattenToKeyValue (num 42) no_options = Normal [].
Proof.
  split; [reflexivity | split; [|reflexivity]].
  intros opts iso. now apply flattenToKeyValue_Leaf.
Qed.

(** ** Key order *)

Lemma keys_app {V : Type} (m1 m2 : list (string * V)) :
  keys (m1 ++ m2) = keys m1 ++ keys m2.
Proof. apply map_app. Qed.

Lemma keys_filter {V : Type} (p : string -> bool) (m : list (string * V)) :
  keys (filter (fun e => p (fst e)) m) = filter p (keys m).
Proof.
  induction m as [|e m IH]; simpl; [reflexivity|].
  destruct (p (fst e)); simpl; now rewrite IH.
Qed.

Lemma StronglySorted_index_keys idx :
  StronglySorted entry_index_le idx -> StronglySorted index_le (keys idx).
Proof.
  induction 1 as [|x idx Hs IH Hx]; simpl; constructor; [exact IH|].
  unfold keys. rewrite Forall_map. exact Hx.
Qed.

(** C7, as stated, fails on keys that are array indices: without
    [sortKeys] the key ["0"] of [[{a: 1}, {"0": 2}]], discovered after
    ["a"], comes out before it. *)
Lemma array_index_keys_break_key_order :
  flattenToKeyValue a_then_zero no_options = Normal [("0", "2"); ("a", "1")]
  /\ calls_of a_then_zero no_options = Normal [("a", "1"); ("0", "2")]
  /\ keys [("0", "2"); ("a", "1")]
     <> discovery_order [("a", "1"); ("0", "2")].
Proof.
  split; [reflexivity | split; [reflexivity | discriminate]].
Qed.

(** With [sortKeys] the order in which [entries.sort] puts the entries is
    lost on array indices: the keys ["9"] and ["10"] come out in that
    order although ["10"] precedes ["9"] lexicographically. *)
Lemma sortKeys_leaves_array_indices_unsorted :
  flattenToKeyValue nine_ten with_sortKeys = Normal [("9", "1"); ("10", "2")]
  /\ ~ StronglySorted string_lt (keys [("9", "1"); ("10", "2")]).
Proof.
  split; [reflexivity|].
  intros H. apply StronglySorted_inv in H. destruct H as [_ H].
  apply Forall_inv in H. discriminate H.
Qed.

(** C7, amended: the keys of the result are the paths that received a
    value.  If [sortKeys] is true and no key is an array index, they
    appear in lexicographic order (code unit by code unit).  If
    [sortKeys] is false, they appear in the order in which each path
    first received a value, except that the keys that are array indices
    are enumerated first, in ascending numeric order; when no key is an
    array index this is the first-discovery order itself. *)
Theorem key_order_of_output input opts out :
  flattenToKeyValue input opts = Normal out ->
  exists l,
    calls_of input opts = Normal l
    /\ Permutation (keys out) (discovery_order l)
    /\ (sortKeys_of opts = true ->
        Forall (fun k => array_index k = None) (keys out) ->
        StronglySorted string_lt (keys out))
    /\ (sortKeys_of opts = false ->
        exists idx,
          keys out
          = idx ++ filter (fun k => negb (is_array_index k))
                          (discovery_order l)
          /\ Permutation idx (filter is_array_index (discovery_order l))
          /\ StronglySorted index_le idx)
    /\ (sortKeys_of opts = false ->
        Forall (fun k => array_index k = None) (keys out) ->
        keys out = discovery_order l).
Proof.
  intros Hout.
  destruct (flattenToKeyValue_Normal _ _ _ Hout) as (l & Hl & ->).
  pose proof (NoDup_keys_entries_of opts l) as Hnd.
  assert (Hnamed : Forall (fun k => array_index k = None)
                          (keys (Object_fromEntries (entries_of opts l))) ->
                   Object_fromEntries (entries_of opts l) = entries_of opts l).
  { intros Hnone. apply Object_fromEntries_named; [exact Hnd|].
    eapply Permutation_Forall; [|exact Hnone].
    unfold keys. apply Permutation_map, Object_fromEntries_perm, Hnd. }
  exists l. split; [exact Hl|]. split.
  { rewrite <- (keys_entries_of_perm opts l).
    unfold keys. apply Permutation_map, Object_fromEntries_perm, Hnd. }
  split; [|split].
  - intros Hsort Hnone. rewrite (Hnamed Hnone).
    now apply keys_entries_of_sorted.
  - intros Hsort.
    destruct (Object_fromEntries_shape _ Hnd) as (idx & Heq & Hperm & Hs).
    exists (keys idx). rewrite <- (keys_entries_of_unsorted opts l Hsort).
    split; [|split].
    + rewrite Heq, keys_app. f_equal.
      apply (keys_filter (fun k => negb (is_array_index k))).
    + rewrite <- (keys_filter is_array_index).
      unfold keys. now apply Permutation_map.
    + now apply StronglySorted_index_keys.
  - intros Hsort Hnone. rewrite (Hnamed Hnone).
    now apply keys_entries_of_unsorted.
Qed.

Lemma key_order_of_output_witness :
  StronglySorted string_lt (keys [("a", "1"); ("b", "1")])
  /\ exists idx,
      keys [("0", "2"); ("a", "1")]
      = idx ++ filter (fun k => negb (is_array_index k))
                      (discovery_order [("a", "1"); ("0", "2")])
      /\ Permutation idx
           (filter is_array_index (discovery_order [("a", "1"); ("0", "2")]))
      /\ StronglySorted index_le idx.
Proof.
  split.
  - destruct (key_order_of_output (Object [("b", num 1); ("a", num 1)])
                with_sortKeys [("a", "1"); ("b", "1")] eq_refl)
      as (l & _ & _ & Hsorted & _).
    apply Hsorted; [reflexivity | repeat constructor].
  - destruct (key_order_of_output a_then_zero no_options
                [("0", "2"); ("a", "1")] eq_refl)
      as (l & Hl & _ & _ & Hidx & _).
    injection Hl as <-. apply Hidx. reflexivity.
Defined.

(** ** Empty field names *)

(** C10, as stated, fails below the root: in [{"": {"": 1}}] the inner
    field is nested and its empty name is dropped all the same, and so is
    the one of [[{"": 1}]]; and [{"": v}] does not give [{}] when [v] is
    an object. *)
Lemma nested_empty_name_dropped :
  flattenToKeyValue (Object [("", Object [("", num 1)])]) no_options = Normal []
  /\ flattenToKeyValue (Array [Object [("", num 1)]]) no_options = Normal []
  /\ flattenToKeyValue (Object [("", Object [("a", num 1)])]) no_options
     = Normal [("a", "1")].
Proof. repeat split. Qed.

Lemma walk_Object_field delimiter_ includeNullUndefined_ {S : Type}
      (emit : string -> string -> S -> S) pre k v post path s :
  walk delimiter_ includeNullUndefined_ emit (Object (pre ++ (k, v) :: post))
       path s
  = s1 <- walk delimiter_ includeNullUndefined_ emit (Object pre) path s ;;
    s2 <- walk delimiter_ includeNullUndefined_ emit v
               (next delimiter_ path k) s1 ;;
    walk delimiter_ includeNullUndefined_ emit (Object post) path s2.
Proof.
  rewrite !walk_Object, for_of_app.
  destruct (for_of _ pre s) as [s1|e]; cbn [bind]; [|reflexivity].
  now rewrite for_of_cons.
Qed.

Lemma walk_Array_element delimiter_ includeNullUndefined_ {S : Type}
      (emit : string -> string -> S -> S) before entries after path s :
  walk delimiter_ includeNullUndefined_ emit
       (Array (before ++ Object entries :: after)) path s
  = s1 <- walk delimiter_ includeNullUndefined_ emit (Array before) path s ;;
    s2 <- walk delimiter_ includeNullUndefined_ emit (Object entries) path s1 ;;
    walk delimiter_ includeNullUndefined_ emit (Array after) path s2.
Proof.
  rewrite !walk_Array_items, for_of_app.
  destruct (for_of _ before s) as [s1|e]; cbn [bind]; [|reflexivity].
  rewrite for_of_cons. unfold walk_item at 1.
  destruct (walk delimiter_ includeNullUndefined_ emit (Object entries)
                 path s1) as [s2|e]; cbn [bind]; [|reflexivity].
  now rewrite walk_Array_items.
Qed.

(** C10, amended: a field named by the empty string, wherever it stands
    among the fields of an object and whether the object is a field value
    or an element of an array, leaves an empty parent path empty, so that
    its value is walked as if it stood in place of the object, and
    [{"": v}] gives [{}] for a leaf [v]; under a non-empty parent path the
    empty name is kept as a segment and the value is walked at the parent
    path followed by the delimiter.  Flattening [{a: {"": 1}}] gives
    ["a.": "1"]. *)
Theorem empty_field_name :
  (forall delimiter_ path,
      truthy path = true ->
      next delimiter_ path "" = (path ++ delimiter_)%string)
  /\ (forall delimiter_ includeNullUndefined_ (S : Type)
             (emit : string -> string -> S -> S) pre v post path s,
         truthy path = true ->
         walk delimiter_ includeNullUndefined_ emit
              (Object (pre ++ ("", v) :: post)) path s
         = s1 <- walk delimiter_ includeNullUndefined_ emit (Object pre)
                      path s ;;
           s2 <- walk delimiter_ includeNullUndefined_ emit v
                      (path ++ delimiter_)%string s1 ;;
           walk delimiter_ includeNullUndefined_ emit (Object post) path s2)
  /\ (forall delimiter_ includeNullUndefined_ (S : Type)
             (emit : string -> string -> S -> S) pre v post s,
         walk delimiter_ includeNullUndefined_ emit
              (Object (pre ++ ("", v) :: post)) "" s
         = s1 <- walk delimiter_ includeNullUndefined_ emit (Object pre)
                      "" s ;;
           s2 <- walk delimiter_ includeNullUndefined_ emit v "" s1 ;;
           walk delimiter_ includeNullUndefined_ emit (Object post) "" s2)
  /\ (forall delimiter_ includeNullUndefined_ (S : Type)
             (emit : string -> string -> S -> S) before entries after path s,
         walk delimiter_ includeNullUndefined_ emit
              (Array (before ++ Object entries :: after)) path s
         = s1 <- walk delimiter_ includeNullUndefined_ emit (Array before)
                      path s ;;
           s2 <- walk delimiter_ includeNullUndefined_ emit (Object entries)
                      path s1 ;;
           walk delimiter_ includeNullUndefined_ emit (Array after) path s2)
  /\ (forall v opts,
         has_invalid_date (Leaf v) = false ->
         flattenToKeyValue (Object [("", Leaf v)]) opts = Normal [])
  /\ flattenToKeyValue (Object [("a", Object [("", num 1)])]) no_options
     = Normal [("a.", "1")].
Proof.
  assert (Hnext : forall d path,
             truthy path = true -> next d path "" = (path ++ d)%string).
  { intros d path Hpath. unfold next. rewrite Hpath.
    f_equal. induction d; simpl; congruence. }
  split; [exact Hnext|].
  split; [|split; [|split; [|split; [|reflexivity]]]].
  - intros d i S emit pre v post path s Hpath.
    now rewrite walk_Object_field, Hnext.
  - intros. now rewrite walk_Object_field.
  - intros. apply walk_Array_element.
  - intros v opts Hv.
    assert (Hone : forall d i (S : Type) (emit : string -> string -> S -> S)
                          w path s,
               walk d i emit (Object [("", w)]) path s
               = walk d i emit w (next d path "") s).
    { intros. rewrite walk_Object, for_of_cons. unfold walk_field.
      simpl fst. simpl snd.
      now destruct (walk d i emit w (next d path "") s). }
    unfold flattenToKeyValue. rewrite Hone.
    change (next (nullish (delimiter opts) ".") "" "") with "".
    apply (flattenToKeyValue_Leaf v opts Hv).
Qed.

Lemma empty_field_name_witness :
  next "/" "a" "" = "a/"
  /\ walk "." false record
          (Object ([("x", num 0)] ++ ("", num 1) :: [("b", num 2)])) "a" []
     = Normal [("a.x", "0"); ("a.", "1"); ("a.b", "2")]
  /\ flattenToKeyValue (Object [("", Leaf (Str "v"))]) no_options = Normal [].
Proof.
  split; [|split].
  - apply (proj1 empty_field_name "/" "a"). reflexivity.
  - rewrite (proj1 (proj2 empty_field_name) "." false log record
               [("x", num 0)] (num 1) [("b", num 2)] "a" []);
      reflexivity.
  - apply (proj1 (proj2 (proj2 (proj2 (proj2 empty_field_name))))
                 (Str "v") no_options).
    reflexivity.
Defined.

(** ** Where the program departs from its documentation *)

(** What [walk] does with a [null] or [undefined] value of its own:
    nothing without [includeNullUndefined], and one call to [add] with
    the literal text otherwise. *)
Lemma walk_null_undefined delimiter_ includeNullUndefined_ {S : Type}
      (emit : string -> string -> S -> S) path s :
  walk delimiter_ includeNullUndefined_ emit (Leaf Null) path s
  = Normal (if includeNullUndefined_ then emit path "null" s else s)
  /\ walk delimiter_ includeNullUndefined_ emit (Leaf Undefined) path s
     = Normal (if includeNullUndefined_ then emit path "undefined" s else s).
Proof. now destruct includeNullUndefined_. Qed.

(** A [null] element of an array is treated like a [null] field. *)
Lemma walk_item_null delimiter_ includeNullUndefined_ {S : Type}
      (emit : string -> string -> S -> S) path s :
  walk_item delimiter_ includeNullUndefined_ emit path (Leaf Null) s
  = Normal (if includeNullUndefined_ then emit path "null" s else s).
Proof. now destruct includeNullUndefined_. Qed.

(** An [undefined] element of an array is passed over, whatever the
    options: [isPrimitive(undefined)] is false, and the loop over a mixed
    array has no branch for what is neither primitive, date, array nor
    plain object. *)
Lemma walk_item_undefined delimiter_ includeNullUndefined_ {S : Type}
      (emit : string -> string -> S -> S) path s :
  walk_item delimiter_ includeNullUndefined_ emit path (Leaf Undefined) s
  = Normal s.
Proof. reflexivity. Qed.

(** C3: with [includeNullUndefined] on, [{a: [undefined]}] flattens to
    [{}] and [{a: [null, undefined]}] to ["a": "null"]: the [undefined]
    element is dropped, although the same value held by a field is
    emitted as ["undefined"]. The values held by fields behave as
    documented: [{a: null, b: undefined}] gives [{}] by default and
    ["a": "null"], ["b": "undefined"] with the option. *)
Theorem undefined_array_element_dropped :
  flattenToKeyValue (Object [("a", Array [Leaf Undefined])])
                    with_includeNullUndefined
  = Normal []
  /\ flattenToKeyValue (Object [("a", Array [Leaf Null; Leaf Undefined])])
                       with_includeNullUndefined
     = Normal [("a", "null")]
  /\ flattenToKeyValue (Object [("a", Leaf Undefined)])
                       with_includeNullUndefined
     = Normal [("a", "undefined")]
  /\ flattenToKeyValue (Object [("a", Leaf Null); ("b", Leaf Undefined)])
                       no_options
     = Normal []
  /\ flattenToKeyValue (Object [("a", Leaf Null); ("b", Leaf Undefined)])
                       with_includeNullUndefined
     = Normal [("a", "null"); ("b", "undefined")].
Proof. repeat split. Qed.

(** [toStr] never throws on a function or a symbol: a failure of
    [JSON.stringify] is caught and replaced by [String(v)]. *)
Lemma toStr_opaque includeNullUndefined_ :
  (forall f, exists r, toStr includeNullUndefined_ (Function f) = Normal r)
  /\ (forall f e,
         toJSON f = Some (Throw e) ->
         toStr includeNullUndefined_ (Function f)
         = Normal (Some (source_text f)))
  /\ (forall f,
         toJSON f = None ->
         toStr includeNullUndefined_ (Function f) = Normal None)
  /\ (forall d, toStr includeNullUndefined_ (Symbol d) = Normal None).
Proof.
  split; [|split; [|split]].
  - intros f. now apply toStr_returns.
  - intros f e H. unfold toStr, JSON_stringify_function. now rewrite H.
  - intros f H. unfold toStr, JSON_stringify_function. now rewrite H.
  - reflexivity.
Qed.

(** C4: a function or a symbol held by a field produces no entry.
    [JSON.stringify] returns [undefined] on it without throwing, so the
    fallback to [String(v)] is not taken, [toStr] yields [undefined], and
    [walk] skips the call to [add].  Held by an array, it is passed over
    before [toStr] is reached. *)
Theorem opaque_leaf_produces_no_entry :
  (forall includeNullUndefined_ src,
      toStr includeNullUndefined_
            (Function {| source_text := src; toJSON := None |})
      = Normal None)
  /\ (forall includeNullUndefined_ description,
         toStr includeNullUndefined_ (Symbol description) = Normal None)
  /\ flattenToKeyValue (Object [("f", Leaf (Function plain_function))])
                       no_options
     = Normal []
  /\ flattenToKeyValue (Object [("s", Leaf (Symbol "id"))]) no_options
     = Normal []
  /\ flattenToKeyValue
       (Object [("a", Array [Leaf (Function plain_function); num 1])])
       no_options
     = Normal [("a", "1")].
Proof. repeat split. Qed.

(** C9: the walk is structurally recursive and so terminates on every
    finite input, but [flattenToKeyValue] does not return on all of them:
    it throws a RangeError exactly when the input holds an Invalid Date,
    [toISOString] being called outside any [try]; [{d: new Date(NaN)}]
    is such an input. *)
Theorem invalid_date_raises :
  (forall input opts,
      match flattenToKeyValue input opts with
      | Normal _ => has_invalid_date input = false
      | Throw e => e = RangeError /\ has_invalid_date input = true
      end)
  /\ (forall opts,
         flattenToKeyValue (Leaf (Date InvalidDate)) opts = Throw RangeError)
  /\ flattenToKeyValue (Object [("d", Leaf (Date InvalidDate))]) no_options
     = Throw RangeError.
Proof.
  split; [apply flattenToKeyValue_completion | split; reflexivity].
Qed.

(** * Further properties of the program *)

(** ** The accumulator only grows *)

Lemma includes_snoc l x : includes (l ++ [x]) x = true.
Proof. apply includes_In, in_or_app. right. now left. Qed.

(** X8: with [dedupeArrayValues], adding the same value twice in a row to
    a path is the same as adding it once. *)
Theorem add_dedupe_idempotent key val acc :
  add true key val (add true key val acc) = add true key val acc.
Proof.
  destruct (truthy key) eqn:Hkey; [|unfold add; now rewrite !Hkey].
  assert (Hne : key <> "") by now apply truthy_nonempty.
  assert (Hseen : exists list,
             Map_get key (add true key val acc) = Some list
             /\ includes list val = true).
  { rewrite (Map_get_add_same true key val acc Hne).
    destruct (Map_get key acc) as [list|].
    - simpl. destruct (includes list val) eqn:E; eexists; split;
        try reflexivity; [exact E | apply includes_snoc].
    - eexists. split; [reflexivity|]. apply (includes_snoc []). }
  destruct Hseen as (list & Hget & Hin).
  unfold add at 1. now rewrite Hkey, Hget, Hin.
Qed.

Lemma Map_set_keeps_NoDup {V : Type} key (v : V) m :
  NoDup (keys m) -> NoDup (keys (Map_set key v m)).
Proof.
  intros Hnd. destruct (Map_get key m) eqn:E.
  - rewrite keys_Map_set_present; [exact Hnd | congruence].
  - rewrite (Map_set_absent _ _ _ E), keys_app. simpl.
    apply (Permutation_NoDup (Permutation_cons_append (keys m) key)).
    constructor; [now apply Map_get_None | exact Hnd].
Qed.

Lemma prefix_of_refl {A : Type} (l : list A) : prefix_of l l.
Proof. exists []. now rewrite app_nil_r. Qed.

Lemma prefix_of_snoc {A : Type} (l : list A) x : prefix_of l (l ++ [x]).
Proof. now exists [x]. Qed.

(** X12: [add] only ever appends.  The paths already present keep their
    order and a new path goes last; the sequence of every path already
    present is kept as the beginning of its new sequence; and paths stay
    distinct and non-empty. *)
Theorem add_only_appends dedupe key val acc :
  prefix_of (keys acc) (keys (add dedupe key val acc))
  /\ (forall k list,
         Map_get k acc = Some list ->
         exists list',
           Map_get k (add dedupe key val acc) = Some list'
           /\ prefix_of list list')
  /\ (NoDup (keys acc) -> NoDup (keys (add dedupe key val acc)))
  /\ (forallb truthy (keys acc) = true ->
      forallb truthy (keys (add dedupe key val acc)) = true).
Proof.
  split; [|split; [|split]].
  - rewrite keys_add.
    destruct (truthy key && negb (includes (keys acc) key));
      [apply prefix_of_snoc | apply prefix_of_refl].
  - intros k list Hget.
    destruct (String.eqb_spec key k) as [->|Hne].
    + destruct (truthy k) eqn:Hk.
      * rewrite (Map_get_add_same dedupe k val acc)
          by now apply truthy_nonempty.
        rewrite Hget. eexists. split; [reflexivity|].
        destruct (dedupe && includes list val);
          [apply prefix_of_refl | apply prefix_of_snoc].
      * exists list. unfold add. rewrite Hk. simpl.
        split; [exact Hget | apply prefix_of_refl].
    + exists list. rewrite (Map_get_add_other dedupe k key val acc Hne).
      split; [exact Hget | apply prefix_of_refl].
  - intros Hnd. unfold add. destruct (negb (truthy key)); [exact Hnd|].
    destruct (Map_get key acc) as [list|].
    + destruct (negb dedupe || negb (includes list val)); [|exact Hnd].
      now apply Map_set_keeps_NoDup.
    + now apply Map_set_keeps_NoDup.
  - intros Hall. rewrite keys_add.
    destruct (truthy key) eqn:Hk; simpl; [|exact Hall].
    destruct (negb (includes (keys acc) key)); [|exact Hall].
    rewrite forallb_app, Hall. simpl. now rewrite Hk.
Qed.

Lemma add_only_appends_witness :
  (exists list',
      Map_get "a" (add false "a" "2" [("a", ["1"]); ("b", ["x"])]) = Some list'
      /\ prefix_of ["1"] list')
  /\ NoDup (keys (add false "c" "3" [("a", ["1"]); ("b", ["x"])]))
  /\ forallb truthy (keys (add false "c" "3" [("a", ["1"]); ("b", ["x"])]))
     = true.
Proof.
  split; [|split].
  - apply (proj1 (proj2 (add_only_appends false "a" "2"
                           [("a", ["1"]); ("b", ["x"])])) "a" ["1"]).
    reflexivity.
  - apply (proj1 (proj2 (proj2 (add_only_appends false "c" "3"
                                  [("a", ["1"]); ("b", ["x"])])))).
    repeat constructor; simpl; intuition discriminate.
  - apply (proj2 (proj2 (proj2 (add_only_appends false "c" "3"
                                  [("a", ["1"]); ("b", ["x"])])))).
    reflexivity.
Defined.

(** ** The comparator of the sort *)

(** X9: the comparator handed to [sort] is consistent: swapping its
    arguments reverses its answer, it answers 0 exactly on equal keys, and
    its "before" is transitive; the order in which the entries are sorted
    is therefore well defined. *)
Theorem compare_keys_consistent :
  (forall x y, compare_keys x y = CompOpp (compare_keys y x))
  /\ (forall x y, compare_keys x y = Eq <-> fst x = fst y)
  /\ (forall x y z,
         compare_keys x y = Lt -> compare_keys y z = Lt ->
         compare_keys x z = Lt).
Proof.
  assert (Hlt : forall x y, compare_keys x y = Lt <-> key_lt x y).
  { intros x y. unfold compare_keys, key_lt, string_lt.
    destruct (fst x <? fst y)%string; [tauto|].
    destruct (fst y <? fst x)%string; split; discriminate. }
  assert (Hgt : forall x y, compare_keys x y = Gt <-> key_lt y x).
  { intros x y. split; [apply compare_keys_Gt|].
    unfold compare_keys, key_lt. intros H.
    destruct (fst x <? fst y)%string eqn:E.
    - exfalso. apply (string_lt_irrefl (fst x)).
      now apply string_lt_trans with (fst y).
    - unfold string_lt in H. now rewrite H. }
  split; [|split].
  - intros x y.
    destruct (compare_keys y x) eqn:E; simpl.
    + destruct (compare_keys x y) eqn:F; [reflexivity| |].
      * apply Hlt in F. unfold compare_keys, key_lt, string_lt in *.
        rewrite F in E. destruct (fst y <? fst x)%string; discriminate.
      * apply Hgt in F. unfold compare_keys, key_lt, string_lt in *.
        now rewrite F in E.
    + now apply Hgt, Hlt.
    + now apply Hlt, Hgt.
  - intros x y. split.
    + intros E.
      destruct (string_lt_total (fst x) (fst y)) as [H|[H|H]]; [|exact H|].
      * apply Hlt in H. congruence.
      * apply Hgt in H. congruence.
    + intros E. unfold compare_keys. rewrite E.
      destruct (fst y <? fst y)%string eqn:F; [|reflexivity].
      now apply string_lt_irrefl in F.
  - intros x y z Hxy Hyz. apply Hlt. apply Hlt in Hxy, Hyz.
    unfold key_lt in *. now apply string_lt_trans with (fst y).
Qed.

Lemma compare_keys_consistent_witness :
  compare_keys ("a", "1") ("c", "3") = Lt.
Proof.
  apply (proj2 (proj2 compare_keys_consistent)
               ("a", "1") ("b", "2") ("c", "3"));
    reflexivity.
Defined.

(** ** The keys of the result *)

Lemma Map_get_perm {V : Type} key (m1 m2 : list (string * V)) :
  NoDup (keys m1) -> Permutation m1 m2 -> Map_get key m1 = Map_get key m2.
Proof.
  intros Hnd Hperm.
  assert (Hnd2 : NoDup (keys m2))
    by (eapply Permutation_NoDup; [apply Permutation_map, Hperm | exact Hnd]).
  destruct (Map_get key m1) as [v|] eqn:E.
  - symmetry. apply In_Map_get; [exact Hnd2|].
    eapply Permutation_in; [exact Hperm | now apply Map_get_Some_In].
  - symmetry. apply Map_get_None. intros Hin. apply Map_get_None in E.
    apply E. eapply Permutation_in; [|exact Hin].
    symmetry. apply Permutation_map, Hperm.
Qed.

Lemma keys_output_perm opts l :
  Permutation (keys (Object_fromEntries (entries_of opts l)))
              (discovery_order l).
Proof.
  rewrite <- (keys_entries_of_perm opts l).
  unfold keys. apply Permutation_map, Object_fromEntries_perm.
  apply NoDup_keys_entries_of.
Qed.

(** X3: the keys of the result are exactly the non-empty paths at which
    [walk] called [add], each appearing once: no path that received a
    value is lost, and none is invented. *)
Theorem output_keys_are_the_paths_added input opts out :
  flattenToKeyValue input opts = Normal out ->
  exists l,
    calls_of input opts = Normal l
    /\ NoDup (keys out)
    /\ (forall key,
           In key (keys out)
           <-> truthy key = true /\ exists val, In (key, val) l).
Proof.
  intros Hout.
  destruct (flattenToKeyValue_Normal _ _ _ Hout) as (l & Hl & ->).
  exists l. split; [exact Hl|]. split.
  - eapply Permutation_NoDup;
      [symmetry; apply keys_output_perm | apply NoDup_discovery_order].
  - intros key.
    rewrite (Permutation_in' eq_refl (keys_output_perm opts l)).
    unfold discovery_order. rewrite In_first_occurrences, filter_In.
    rewrite in_map_iff. split.
    + intros [([k v] & Hk & Hin) Ht]. simpl in Hk. subst k.
      split; [exact Ht | now exists v].
    + intros [Ht [v Hin]]. split; [|exact Ht]. now exists (key, v).
Qed.

Lemma output_keys_are_the_paths_added_witness :
  exists l,
    calls_of tags no_options = Normal l
    /\ NoDup (keys [("tags", "a,b,b")])
    /\ (forall key,
           In key (keys [("tags", "a,b,b")])
           <-> truthy key = true /\ exists val, In (key, val) l).
Proof.
  apply (output_keys_are_the_paths_added tags no_options [("tags", "a,b,b")]).
  reflexivity.
Defined.

(** X2: [sortKeys] changes the order of the keys and nothing else: with
    the other options equal, the two results hold the same properties,
    and every key reads the same value in both. *)
Theorem sortKeys_changes_order_only input opts1 opts2 out1 out2 :
  delimiter_of opts1 = delimiter_of opts2 ->
  joiner_of opts1 = joiner_of opts2 ->
  includeNullUndefined_of opts1 = includeNullUndefined_of opts2 ->
  dedupe_of opts1 = dedupe_of opts2 ->
  flattenToKeyValue input opts1 = Normal out1 ->
  flattenToKeyValue input opts2 = Normal out2 ->
  Permutation out1 out2
  /\ forall key, Map_get key out1 = Map_get key out2.
Proof.
  intros Hd Hj Hi Hdd H1 H2.
  destruct (flattenToKeyValue_Normal _ _ _ H1) as (l1 & Hl1 & ->).
  destruct (flattenToKeyValue_Normal _ _ _ H2) as (l2 & Hl2 & ->).
  unfold calls_of in Hl1, Hl2. rewrite Hd, Hi, Hl2 in Hl1.
  injection Hl1 as <-.
  assert (Hperm : Permutation (Object_fromEntries (entries_of opts1 l2))
                              (Object_fromEntries (entries_of opts2 l2))).
  { rewrite !Object_fromEntries_perm by apply NoDup_keys_entries_of.
    unfold entries_of. rewrite Hj, Hdd.
    destruct (sortKeys_of opts1), (sortKeys_of opts2);
      rewrite ?sort_perm; reflexivity. }
  split; [exact Hperm|].
  intros key. apply Map_get_perm; [|exact Hperm].
  eapply Permutation_NoDup;
    [symmetry; apply keys_output_perm | apply NoDup_discovery_order].
Qed.

Lemma sortKeys_changes_order_only_witness :
  Permutation [("a", "1"); ("b", "1")] [("b", "1"); ("a", "1")]
  /\ forall key,
      Map_get key [("a", "1"); ("b", "1")]
      = Map_get key [("b", "1"); ("a", "1")].
Proof.
  apply (sortKeys_changes_order_only
           (Object [("b", num 1); ("a", num 1)]) with_sortKeys no_options);
    reflexivity.
Defined.

Lemma keys_insert_index {n k v1 v2} (obj1 obj2 : object) :
  keys obj1 = keys obj2 ->
  keys (insert_index n k v1 obj1) = keys (insert_index n k v2 obj2).
Proof.
  revert obj2. induction obj1 as [|[k1 w1] obj1 IH];
    intros [|[k2 w2] obj2]; try discriminate; [reflexivity|].
  simpl. intros [= <- Hrest].
  destruct (array_index k1) as [n1|]; [|simpl; now rewrite Hrest].
  destruct (n <? n1)%N; simpl; [now rewrite Hrest|].
  f_equal. now apply IH.
Qed.

Lemma keys_define_property (obj1 obj2 : object) k v1 v2 :
  keys obj1 = keys obj2 ->
  keys (define_property obj1 (k, v1)) = keys (define_property obj2 (k, v2)).
Proof.
  intros Hkeys. unfold define_property.
  pose proof (includes_keys k obj1) as H1.
  pose proof (includes_keys k obj2) as H2.
  rewrite Hkeys in H1. rewrite H1 in H2.
  destruct (Map_get k obj1) eqn:E1, (Map_get k obj2) eqn:E2;
    try discriminate.
  - rewrite !keys_Map_set_present by congruence. exact Hkeys.
  - destruct (array_index k).
    + now apply keys_insert_index.
    + rewrite !keys_app. now rewrite Hkeys.
Qed.

Lemma keys_Object_fromEntries (es1 es2 : list (string * string)) :
  keys es1 = keys es2 ->
  keys (Object_fromEntries es1) = keys (Object_fromEntries es2).
Proof.
  unfold Object_fromEntries.
  assert (H : forall obj1 obj2 : object,
             keys obj1 = keys obj2 -> keys es1 = keys es2 ->
             keys (fold_left define_property es1 obj1)
             = keys (fold_left define_property es2 obj2));
    [|now apply H].
  revert es2. induction es1 as [|[k v1] es1 IH];
    intros [|[k2 v2] es2] obj1 obj2 Hobj; try discriminate; [easy|].
  simpl. intros [= <- Hrest]. apply IH; [|exact Hrest].
  now apply keys_define_property.
Qed.

Lemma keys_sort_insert x1 x2 (es1 es2 : list (string * string)) :
  fst x1 = fst x2 -> keys es1 = keys es2 ->
  keys (sort_insert x1 es1) = keys (sort_insert x2 es2).
Proof.
  intros Hx. revert es2. induction es1 as [|y1 es1 IH];
    intros [|y2 es2]; try discriminate; simpl; [now rewrite Hx|].
  intros [= Hy Hrest]. unfold compare_keys. rewrite Hx, Hy.
  destruct (fst x2 <? fst y2)%string; simpl; [now rewrite Hx, Hy, Hrest|].
  destruct (fst y2 <? fst x2)%string; simpl.
  - rewrite Hy. f_equal. now apply IH.
  - now rewrite Hx, Hy, Hrest.
Qed.

Lemma keys_sort (es1 es2 : list (string * string)) :
  keys es1 = keys es2 -> keys (sort es1) = keys (sort es2).
Proof.
  revert es2. induction es1 as [|x1 es1 IH]; intros [|x2 es2];
    try discriminate; [reflexivity|].
  simpl. intros [= Hx Hrest]. apply keys_sort_insert; [exact Hx|].
  now apply IH.
Qed.

(** X4: the keys of the result, and their order, do not depend on
    [joiner] nor on [dedupeArrayValues]: de-duplication never removes a
    key. *)
Theorem keys_independent_of_joiner_and_dedupe input opts1 opts2 out1 out2 :
  delimiter_of opts1 = delimiter_of opts2 ->
  includeNullUndefined_of opts1 = includeNullUndefined_of opts2 ->
  sortKeys_of opts1 = sortKeys_of opts2 ->
  flattenToKeyValue input opts1 = Normal out1 ->
  flattenToKeyValue input opts2 = Normal out2 ->
  keys out1 = keys out2.
Proof.
  intros Hd Hi Hs H1 H2.
  destruct (flattenToKeyValue_Normal _ _ _ H1) as (l1 & Hl1 & ->).
  destruct (flattenToKeyValue_Normal _ _ _ H2) as (l2 & Hl2 & ->).
  unfold calls_of in Hl1, Hl2. rewrite Hd, Hi, Hl2 in Hl1.
  injection Hl1 as <-.
  apply keys_Object_fromEntries. unfold entries_of. rewrite Hs.
  destruct (sortKeys_of opts2); [apply keys_sort|];
    now rewrite !keys_joined, !keys_accumulated.
Qed.

Lemma keys_independent_of_joiner_and_dedupe_witness :
  keys [("purchases.sku", "X,Y,X"); ("purchases.qty", "1,2,3")]
  = keys [("purchases.sku", "X,Y"); ("purchases.qty", "1,2,3")].
Proof.
  apply (keys_independent_of_joiner_and_dedupe purchases no_options
           with_dedupeArrayValues); reflexivity.
Defined.

(** ** Arrays are transparent *)

(** X6: an array is walked as the sequence of its elements, each at the
    path of the array itself, except that elements that are [undefined],
    functions or symbols are passed over; in particular [[v]] flattens
    like [v] for every other [v]. *)
Theorem array_walks_its_elements
        delimiter_ includeNullUndefined_ {S : Type}
        (emit : string -> string -> S -> S) items path s :
  walk delimiter_ includeNullUndefined_ emit (Array items) path s
  = for_of (fun item => walk delimiter_ includeNullUndefined_ emit item path)
           (filter (fun item => negb (skipped_in_array item)) items) s.
Proof.
  rewrite walk_Array_items. revert s.
  induction items as [|x items IH]; intros s; [reflexivity|].
  rewrite for_of_cons. cbn [filter].
  destruct (skipped_in_array x) eqn:E; cbn [negb].
  - destruct x as [[]| |]; try discriminate; simpl; apply IH.
  - rewrite for_of_cons.
    replace (walk_item delimiter_ includeNullUndefined_ emit path x s)
      with (walk delimiter_ includeNullUndefined_ emit x path s)
      by (destruct x as [[]| |]; try discriminate; reflexivity).
    destruct (walk delimiter_ includeNullUndefined_ emit x path s);
      simpl; [apply IH | reflexivity].
Qed.

Lemma for_of_unchanged {A S : Type} (body : A -> S -> completion S) items :
  (forall x, In x items -> forall s, body x s = Normal s) ->
  forall s, for_of body items s = Normal s.
Proof.
  induction items as [|x rest IH]; intros H s; [reflexivity|].
  rewrite for_of_cons, (H x (or_introl eq_refl)). simpl.
  apply IH. intros y Hy. apply H. now right.
Qed.

Lemma flat_map_nil {A B : Type} (f : A -> list B) l :
  flat_map f l = [] -> forall x, In x l -> f x = [].
Proof.
  induction l as [|a l IH]; simpl; [tauto|].
  intros H x [->|Hx].
  - now apply app_eq_nil in H.
  - apply IH; [now apply app_eq_nil in H | exact Hx].
Qed.

Lemma walk_leafless delimiter_ includeNullUndefined_ val :
  chains val = [] ->
  forall {S : Type} (emit : string -> string -> S -> S) path s,
    walk delimiter_ includeNullUndefined_ emit val path s = Normal s.
Proof.
  induction val as [v|items IH|entries IH] using value_induction;
    intros Hval S emit path s.
  - discriminate.
  - rewrite walk_Array_items. apply for_of_unchanged.
    intros x Hx s1. rewrite Forall_forall in IH.
    pose proof (flat_map_nil _ _ Hval x Hx) as Hc.
    specialize (IH x Hx Hc S emit path s1).
    destruct x as [v|l|es]; [discriminate | exact IH | exact IH].
  - rewrite walk_Object. apply for_of_unchanged.
    intros x Hx s1. rewrite Forall_forall in IH. apply (IH x Hx).
    pose proof (flat_map_nil _ _ Hval x Hx) as Hc.
    now apply map_eq_nil in Hc.
Qed.

(** X10: a value without any leaf, however its empty objects and empty
    arrays are nested, flattens to the empty object under every
    option. *)
Theorem leafless_input_gives_empty_object input opts :
  chains input = [] -> flattenToKeyValue input opts = Normal [].
Proof.
  intros H. unfold flattenToKeyValue. rewrite (walk_leafless _ _ _ H).
  simpl. now destruct (nullish (sortKeys opts) false).
Qed.

Lemma leafless_input_gives_empty_object_witness :
  flattenToKeyValue
    (Object [("a", Object []); ("b", Array [Array []; Object []])])
    with_sortKeys
  = Normal [].
Proof.
  apply leafless_input_gives_empty_object. reflexivity.
Defined.

(** ** Arrays of strings *)

Lemma calls_strings delimiter_ includeNullUndefined_ path ss :
  calls delimiter_ includeNullUndefined_ (Array (map str ss)) path
  = Normal (map (pair path) ss).
Proof.
  unfold calls. rewrite walk_Array_items, for_of_map.
  assert (H : forall l0,
             for_of (fun x : string =>
                       walk_item delimiter_ includeNullUndefined_ record path
                                 (str x)) ss l0
             = Normal (l0 ++ map (pair path) ss));
    [|apply (H [])].
  induction ss as [|x ss IH]; intros l0.
  - simpl. now rewrite app_nil_r.
  - rewrite for_of_cons. simpl bind. rewrite IH. unfold record.
    now rewrite <- app_assoc.
Qed.

Lemma values_at_pair key ss : values_at key (map (pair key) ss) = ss.
Proof.
  unfold values_at. induction ss as [|x ss IH]; simpl; [reflexivity|].
  rewrite String.eqb_refl. simpl. now rewrite IH.
Qed.

Lemma discovery_order_pair key ss :
  truthy key = true ->
  discovery_order (map (pair key) ss) = match ss with [] => [] | _ => [key] end.
Proof.
  intros Hkey. unfold discovery_order.
  induction ss as [|x ss IH]; [reflexivity|].
  simpl. rewrite Hkey. simpl. rewrite IH.
  destruct ss; simpl; [reflexivity|]. now rewrite String.eqb_refl.
Qed.

Lemma Object_fromEntries_one k v : Object_fromEntries [(k, v)] = [(k, v)].
Proof.
  unfold Object_fromEntries. simpl. now destruct (array_index k).
Qed.

(** X7: an array of strings held by a field is joined into one value:
    [{k: [s1, ..., sn]}] flattens to the single entry [k] holding the
    strings joined by [joiner], or the first occurrence of each with
    [dedupeArrayValues]; the empty array gives no entry. *)
Theorem array_of_strings_is_joined key ss opts :
  truthy key = true ->
  flattenToKeyValue (Object [(key, Array (map str ss))]) opts
  = Normal match sequence_of (dedupe_of opts) ss with
           | Some vs => [(key, join (joiner_of opts) vs)]
           | None => []
           end.
Proof.
  intros Hkey. rewrite flattenToKeyValue_calls.
  assert (Hcalls : calls_of (Object [(key, Array (map str ss))]) opts
                   = Normal (map (pair key) ss)).
  { unfold calls_of, calls. rewrite walk_Object, for_of_cons.
    unfold walk_field. simpl fst. simpl snd.
    replace (next (delimiter_of opts) "" key) with key by reflexivity.
    pose proof (calls_strings (delimiter_of opts)
                  (includeNullUndefined_of opts) key ss) as H.
    unfold calls in H. now rewrite H. }
  rewrite Hcalls. simpl bind. f_equal.
  set (acc := run (add (dedupe_of opts)) (map (pair key) ss) []).
  assert (Hkeys : keys acc = match ss with [] => [] | _ => [key] end)
    by (unfold acc; now rewrite keys_accumulated, discovery_order_pair).
  assert (Hget : Map_get key acc = sequence_of (dedupe_of opts) ss).
  { unfold acc. rewrite accumulated_values by now apply truthy_nonempty.
    now rewrite values_at_pair. }
  assert (Hacc : acc = match sequence_of (dedupe_of opts) ss with
                       | Some vs => [(key, vs)]
                       | None => []
                       end).
  { destruct ss as [|x ss].
    - now destruct acc.
    - destruct acc as [|[k vs] [|e acc]]; try discriminate.
      injection Hkeys as ->. cbn [Map_get] in Hget.
      rewrite String.eqb_refl in Hget. now rewrite <- Hget. }
  unfold entries_of. fold acc. rewrite Hacc.
  destruct (sequence_of (dedupe_of opts) ss) as [vs|]; simpl.
  - destruct (sortKeys_of opts); apply Object_fromEntries_one.
  - now destruct (sortKeys_of opts).
Qed.

Lemma array_of_strings_is_joined_witness :
  flattenToKeyValue (Object [("t", Array (map str ["x"; "y"; "x"]))])
                    with_dedupeArrayValues
  = Normal [("t", "x,y")].
Proof.
  apply (array_of_strings_is_joined "t" ["x"; "y"; "x"]
           with_dedupeArrayValues).
  reflexivity.
Defined.

(** ** The type tests *)



(** ** Nesting a value under a field *)

Lemma string_append_assoc (a b c : string) :
  ((a ++ b) ++ c = a ++ b ++ c)%string.
Proof. induction a as [|x a IH]; simpl; [reflexivity | now rewrite IH]. Qed.

Lemma truthy_append k x : truthy k = true -> truthy (k ++ x) = true.
Proof. now destruct k. Qed.

Lemma truthy_prefix_path delimiter_ k path :
  truthy k = true -> truthy (prefix_path delimiter_ k path) = true.
Proof.
  intros Hk. unfold prefix_path.
  destruct (truthy path); [now apply truthy_append | exact Hk].
Qed.

Lemma next_prefix_path delimiter_ k path name :
  truthy k = true -> truthy name = true ->
  next delimiter_ (prefix_path delimiter_ k path) name
  = prefix_path delimiter_ k (next delimiter_ path name).
Proof.
  intros Hk Hname. unfold next at 1.
  rewrite (truthy_prefix_path delimiter_ k path Hk).
  unfold prefix_path, next. destruct (truthy path) eqn:Hp.
  - rewrite (truthy_append path _ Hp).
    now rewrite !string_append_assoc.
  - now rewrite Hname.
Qed.

Lemma walk_prefix_path delimiter_ includeNullUndefined_ k val :
  truthy k = true -> names_nonempty val = true ->
  forall {S : Type} (emit : string -> string -> S -> S) path s,
    walk delimiter_ includeNullUndefined_ emit val
         (prefix_path delimiter_ k path) s
    = walk delimiter_ includeNullUndefined_
           (fun q x => emit (prefix_path delimiter_ k q) x) val path s.
Proof.
  intros Hk.
  induction val as [v|items IH|entries IH] using value_induction;
    intros Hval S emit path s.
  - reflexivity.
  - rewrite !walk_Array_items. apply for_of_ext. intros x Hx s1.
    rewrite Forall_forall in IH. simpl in Hval.
    rewrite forallb_forall in Hval.
    specialize (IH x Hx (Hval x Hx) S emit path s1).
    destruct x as [v|l|es]; unfold walk_item; try exact IH.
    now destruct (isPrimitive v || instanceof_Date v).
  - rewrite !walk_Object. apply for_of_ext. intros x Hx s1.
    rewrite Forall_forall in IH. simpl in Hval.
    rewrite forallb_forall in Hval. specialize (Hval x Hx).
    apply andb_prop in Hval. destruct Hval as [Hname Hsub].
    unfold walk_field. rewrite (next_prefix_path _ _ _ _ Hk Hname).
    now apply IH.
Qed.

Lemma run_record_at (f : string -> string) l l0 :
  run (fun q x => record (f q) x) l l0
  = l0 ++ map (fun c => (f (fst c), snd c)) l.
Proof.
  revert l0. induction l as [|c l IH]; intros l0.
  - symmetry. apply app_nil_r.
  - change (run (fun q x => record (f q) x) (c :: l) l0)
      with (run (fun q x => record (f q) x) l (record (f (fst c)) (snd c) l0)).
    rewrite IH. unfold record. now rewrite <- app_assoc.
Qed.

(** X5: nesting a value under a field [k] prefixes the paths of all its
    calls to [add]: when [k] and the field names of [v] are non-empty,
    [{k: v}] makes the calls of [v] in the same order with the same
    values, each path [p] becoming [k], the delimiter and [p], and the
    empty path of a top-level leaf of [v] becoming [k]. *)
Theorem nesting_prefixes_paths delimiter_ includeNullUndefined_ k v :
  truthy k = true -> names_nonempty v = true ->
  calls delimiter_ includeNullUndefined_ (Object [(k, v)]) ""
  = l <- calls delimiter_ includeNullUndefined_ v "" ;;
    Normal (map (fun c => (prefix_path delimiter_ k (fst c), snd c)) l).
Proof.
  intros Hk Hv. unfold calls at 1.
  rewrite walk_Object, for_of_cons. unfold walk_field. simpl fst. simpl snd.
  change (next delimiter_ "" k) with (prefix_path delimiter_ k "").
  rewrite (walk_prefix_path _ _ _ _ Hk Hv), walk_replay.
  destruct (calls delimiter_ includeNullUndefined_ v "") as [l|e];
    [|reflexivity].
  simpl. now rewrite run_record_at.
Qed.

Lemma nesting_prefixes_paths_witness :
  calls "." false
        (Object [("k", Object [("a", Array [num 1; Object [("b", num 2)]])])])
        ""
  = l <- calls "." false (Object [("a", Array [num 1; Object [("b", num 2)]])])
               "" ;;
    Normal (map (fun c => (prefix_path "." "k" (fst c), snd c)) l).
Proof.
  apply (nesting_prefixes_paths "." false "k"
           (Object [("a", Array [num 1; Object [("b", num 2)]])]));
    reflexivity.
Defined.

(** ** [includeNullUndefined] only adds *)

Lemma subsequence_refl {A : Type} (l : list A) : subsequence l l.
Proof. induction l; constructor; assumption. Qed.

Lemma subsequence_snoc_keep {A : Type} (l1 l2 : list A) x :
  subsequence l1 l2 -> subsequence (l1 ++ [x]) (l2 ++ [x]).
Proof.
  induction 1; simpl; try (constructor; assumption).
  repeat constructor.
Qed.

Lemma subsequence_snoc_drop {A : Type} (l1 l2 : list A) x :
  subsequence l1 l2 -> subsequence l1 (l2 ++ [x]).
Proof.
  induction 1; simpl; try (constructor; assumption).
  repeat constructor.
Qed.

Lemma subsequence_In {A : Type} (l1 l2 : list A) x :
  subsequence l1 l2 -> In x l1 -> In x l2.
Proof. induction 1; simpl; intuition. Qed.

Lemma for_of_related {A S T : Type} (R : S -> T -> Prop)
      (body1 : A -> S -> completion S) (body2 : A -> T -> completion T) items :
  (forall x, In x items ->
     forall s s' t, R s t -> body1 x s = Normal s' ->
                    exists t', body2 x t = Normal t' /\ R s' t') ->
  forall s s' t,
    R s t -> for_of body1 items s = Normal s' ->
    exists t', for_of body2 items t = Normal t' /\ R s' t'.
Proof.
  induction items as [|x rest IH]; intros H s s' t HR.
  - intros [= <-]. now exists t.
  - rewrite !for_of_cons. destruct (body1 x s) as [s1|e] eqn:E; simpl;
      [|discriminate].
    destruct (H x (or_introl eq_refl) s s1 t HR E) as (t1 & -> & HR1).
    simpl. apply IH; [|exact HR1]. intros y Hy. apply H. now right.
Qed.

Lemma emit_leaf_null_undefined path v l1 l1' l2 :
  subsequence l1 l2 ->
  emit_leaf false record v path l1 = Normal l1' ->
  exists l2',
    emit_leaf true record v path l2 = Normal l2'
    /\ subsequence l1' l2'.
Proof.
  intros Hsub. unfold emit_leaf, record.
  destruct v as [| | | | | |[iso|]|f|d]; simpl;
    try (intros [= <-]; eexists; split; [reflexivity|];
         first [now apply subsequence_snoc_keep
               | now apply subsequence_snoc_drop]);
    try discriminate.
  - unfold JSON_stringify_function, try_catch.
    destruct (toJSON f) as [[[x|]|e]|]; simpl; intros [= <-];
      eexists; split; try reflexivity;
      first [now apply subsequence_snoc_keep | exact Hsub].
  - intros [= <-]. now exists l2.
Qed.

Lemma walk_null_undefined_adds delimiter_ val :
  forall path l1 l1' l2,
    subsequence l1 l2 ->
    walk delimiter_ false record val path l1 = Normal l1' ->
    exists l2',
      walk delimiter_ true record val path l2 = Normal l2'
      /\ subsequence l1' l2'.
Proof.
  induction val as [v|items IH|entries IH] using value_induction;
    intros path l1 l1' l2 Hsub.
  - now apply emit_leaf_null_undefined.
  - rewrite !walk_Array_items. apply for_of_related; [|exact Hsub].
    intros x Hx s s' t HR. rewrite Forall_forall in IH.
    specialize (IH x Hx path s s' t HR).
    destruct x as [v|l|es]; unfold walk_item; try exact IH.
    destruct (isPrimitive v || instanceof_Date v); [exact IH|].
    intros [= <-]. now exists t.
  - rewrite !walk_Object. apply for_of_related; [|exact Hsub].
    intros x Hx s s' t HR. rewrite Forall_forall in IH.
    apply (IH x Hx _ s s' t HR).
Qed.

Lemma In_keys_output opts l key :
  In key (keys (Object_fromEntries (entries_of opts l)))
  <-> truthy key = true /\ exists val, In (key, val) l.
Proof.
  rewrite (Permutation_in' eq_refl (keys_output_perm opts l)).
  unfold discovery_order. rewrite In_first_occurrences, filter_In.
  rewrite in_map_iff. split.
  - intros [([k v] & Hk & Hin) Ht]. simpl in Hk. subst k.
    split; [exact Ht | now exists v].
  - intros [Ht [v Hin]]. split; [|exact Ht]. now exists (key, v).
Qed.

(** X11: turning [includeNullUndefined] on only adds.  If the input
    flattens without it, it flattens with it; the calls to [add] made
    without it are made with it too, in the same order, the calls for the
    [null] and [undefined] values coming in between; and every key of
    the result without it is a key of the result with it. *)
Theorem includeNullUndefined_only_adds input off on out_off :
  includeNullUndefined_of off = false ->
  includeNullUndefined_of on = true ->
  delimiter_of off = delimiter_of on ->
  flattenToKeyValue input off = Normal out_off ->
  exists out_on l_off l_on,
    flattenToKeyValue input on = Normal out_on
    /\ calls_of input off = Normal l_off
    /\ calls_of input on = Normal l_on
    /\ subsequence l_off l_on
    /\ (forall key, In key (keys out_off) -> In key (keys out_on)).
Proof.
  intros Hoff Hon Hd Hout.
  destruct (flattenToKeyValue_Normal _ _ _ Hout) as (l_off & Hl & ->).
  pose proof Hl as Hl'. unfold calls_of, calls in Hl'.
  rewrite Hoff, Hd in Hl'.
  destruct (walk_null_undefined_adds _ _ _ _ _ [] (subsequence_refl []) Hl')
    as (l_on & Hl_on & Hsub).
  assert (Hcalls : calls_of input on = Normal l_on)
    by (unfold calls_of, calls; now rewrite Hon).
  exists (Object_fromEntries (entries_of on l_on)), l_off, l_on.
  split; [now rewrite flattenToKeyValue_calls, Hcalls|].
  repeat split; try assumption.
  intros key. rewrite !In_keys_output. intros [Ht [v Hin]].
  split; [exact Ht|]. exists v. now apply (subsequence_In l_off).
Qed.

Lemma includeNullUndefined_only_adds_witness :
  exists out_on l_off l_on,
    flattenToKeyValue
      (Object [("a", Leaf Null); ("b", num 1)]) with_includeNullUndefined
    = Normal out_on
    /\ calls_of (Object [("a", Leaf Null); ("b", num 1)]) no_options
       = Normal l_off
    /\ calls_of (Object [("a", Leaf Null); ("b", num 1)])
                with_includeNullUndefined
       = Normal l_on
    /\ subsequence l_off l_on
    /\ (forall key, In key (keys [("b", "1")]) -> In key (keys out_on)).
Proof.
  apply (includeNullUndefined_only_adds
           (Object [("a", Leaf Null); ("b", num 1)])
           no_options with_includeNullUndefined [("b", "1")]);
    reflexivity.
Defined.

(** ** Flattening a result again *)

Lemma calls_as_value delimiter_ includeNullUndefined_ (out : object) :
  calls delimiter_ includeNullUndefined_ (as_value out) "" = Normal out.
Proof.
  unfold calls, as_value. rewrite walk_Object, for_of_map.
  assert (H : forall l0 : log,
             for_of (fun e : string * string =>
                       walk_field delimiter_ includeNullUndefined_ record ""
                                  (fst e, Leaf (Str (snd e)))) out l0
             = Normal (l0 ++ out)); [|apply (H [])].
  induction out as [|e out IH]; intros l0.
  - simpl. now rewrite app_nil_r.
  - rewrite for_of_cons.
    change (walk_field delimiter_ includeNullUndefined_ record ""
                       (fst e, Leaf (Str (snd e))) l0)
      with (Normal (l0 ++ [(fst e, snd e)])).
    simpl bind. rewrite IH, <- app_assoc, <- surjective_pairing.
    reflexivity.
Qed.

Lemma run_add_fresh dedupe (out : object) :
  forall acc,
    NoDup (keys acc ++ keys out) -> forallb truthy (keys out) = true ->
    run (add dedupe) out acc = acc ++ map (fun e => (fst e, [snd e])) out.
Proof.
  induction out as [|e out IH]; intros acc Hnd Ht.
  - simpl. now rewrite app_nil_r.
  - simpl in Ht. apply andb_prop in Ht. destruct Ht as [Hk Ht].
    change (run (add dedupe) (e :: out) acc)
      with (run (add dedupe) out (add dedupe (fst e) (snd e) acc)).
    assert (Hfresh : Map_get (fst e) acc = None).
    { apply Map_get_None. intros Hin. simpl in Hnd.
      apply NoDup_remove_2 in Hnd. apply Hnd, in_or_app. now left. }
    assert (Hadd : add dedupe (fst e) (snd e) acc
                   = acc ++ [(fst e, [snd e])]).
    { unfold add. rewrite Hk, Hfresh. simpl. now apply Map_set_absent. }
    rewrite Hadd, IH; [simpl; now rewrite <- app_assoc | | exact Ht].
    rewrite keys_app. simpl. now rewrite <- app_assoc.
Qed.

Lemma StronglySorted_before {A : Type} (R : A -> A -> Prop) l1 x l2 :
  StronglySorted R (l1 ++ x :: l2) -> Forall (fun y => R y x) l1.
Proof.
  induction l1 as [|y l1 IH]; simpl; intros H; [constructor|].
  apply StronglySorted_inv in H. destruct H as [Hs Hy].
  constructor; [|now apply IH].
  rewrite Forall_forall in Hy. apply Hy, in_or_app. right. now left.
Qed.

Lemma insert_index_last n k v (obj : object) :
  array_index k = Some n ->
  Forall (fun e => entry_index_le e (k, v)) obj ->
  insert_index n k v obj = obj ++ [(k, v)].
Proof.
  intros Hk. induction 1 as [|[k1 v1] obj H1 Hall IH]; [reflexivity|].
  simpl. unfold entry_index_le, index_le in H1. simpl in H1.
  rewrite Hk in H1. destruct (array_index k1) as [n1|]; [|contradiction].
  destruct (N.ltb_spec n n1); [lia|]. now rewrite IH.
Qed.

Lemma fold_define_indexed (todo : object) :
  forall done,
    Forall (fun e => indexed e = true) todo ->
    StronglySorted entry_index_le (done ++ todo) ->
    NoDup (keys done ++ keys todo) ->
    fold_left define_property todo done = done ++ todo.
Proof.
  induction todo as [|[k v] todo IH]; intros done Hidx Hs Hnd.
  - simpl. now rewrite app_nil_r.
  - inversion Hidx as [|? ? Hk Hidx']; subst.
    unfold indexed, is_array_index in Hk. simpl in Hk.
    destruct (array_index k) as [n|] eqn:Ek; [|discriminate].
    assert (Hfresh : Map_get k done = None).
    { apply Map_get_None. intros Hin. simpl in Hnd.
      apply NoDup_remove_2 in Hnd. apply Hnd, in_or_app. now left. }
    cbn [fold_left]. unfold define_property at 2. rewrite Hfresh, Ek.
    rewrite (insert_index_last n k v done Ek
               (StronglySorted_before _ _ _ _ Hs)).
    rewrite IH; [now rewrite <- app_assoc | exact Hidx' | |].
    + now rewrite <- app_assoc.
    + rewrite keys_app. simpl. now rewrite <- app_assoc.
Qed.

Lemma fold_define_named (todo : object) :
  forall done,
    Forall (fun e => named e = true) todo ->
    NoDup (keys done ++ keys todo) ->
    fold_left define_property todo done = done ++ todo.
Proof.
  induction todo as [|[k v] todo IH]; intros done Hnamed Hnd.
  - simpl. now rewrite app_nil_r.
  - inversion Hnamed as [|? ? Hk Hnamed']; subst.
    unfold named, is_array_index in Hk. simpl in Hk.
    destruct (array_index k) as [n|] eqn:Ek; [discriminate|].
    assert (Hfresh : Map_get k done = None).
    { apply Map_get_None. intros Hin. simpl in Hnd.
      apply NoDup_remove_2 in Hnd. apply Hnd, in_or_app. now left. }
    cbn [fold_left]. unfold define_property at 2. rewrite Hfresh, Ek.
    rewrite IH; [now rewrite <- app_assoc | exact Hnamed' |].
    rewrite keys_app. simpl. now rewrite <- app_assoc.
Qed.

(** An object built from entries that are already in enumeration order
    lists them as they are. *)
Lemma Object_fromEntries_in_order (idx rest : object) :
  Forall (fun e => indexed e = true) idx ->
  StronglySorted entry_index_le idx ->
  Forall (fun e => named e = true) rest ->
  NoDup (keys (idx ++ rest)) ->
  Object_fromEntries (idx ++ rest) = idx ++ rest.
Proof.
  intros Hidx Hs Hrest Hnd. unfold Object_fromEntries.
  rewrite keys_app in Hnd. rewrite fold_left_app.
  rewrite (fold_define_indexed idx []); simpl;
    [ | exact Hidx | exact Hs | now apply NoDup_app_remove_r in Hnd].
  now apply fold_define_named.
Qed.

Lemma Object_fromEntries_idempotent es :
  NoDup (keys es) ->
  Object_fromEntries (Object_fromEntries es) = Object_fromEntries es.
Proof.
  intros Hnd.
  pose proof (Object_fromEntries_perm es Hnd) as Hperm.
  destruct (Object_fromEntries_shape es Hnd) as (idx & Heq & Hidx & Hs).
  rewrite Heq in *. apply Object_fromEntries_in_order.
  - rewrite Hidx. apply Forall_forall. intros e He.
    now apply filter_In in He.
  - exact Hs.
  - apply Forall_forall. intros e He. now apply filter_In in He.
  - eapply Permutation_NoDup; [|exact Hnd].
    symmetry. apply Permutation_map, Hperm.
Qed.

Lemma key_lt_sorted_unique (l1 : list (string * string)) :
  forall l2,
    StronglySorted key_lt l1 -> StronglySorted key_lt l2 ->
    Permutation l1 l2 -> l1 = l2.
Proof.
  induction l1 as [|x l1 IH]; intros l2 H1 H2 Hperm.
  - now apply Permutation_nil in Hperm.
  - destruct l2 as [|y l2];
      [now apply Permutation_sym, Permutation_nil in Hperm|].
    apply StronglySorted_inv in H1, H2.
    destruct H1 as [H1 Hx], H2 as [H2 Hy].
    rewrite Forall_forall in Hx, Hy.
    assert (Hxy : x = y).
    { assert (Hin1 : In x (y :: l2))
        by (eapply Permutation_in; [exact Hperm | now left]).
      assert (Hin2 : In y (x :: l1))
        by (eapply Permutation_in; [symmetry; exact Hperm | now left]).
      destruct Hin1 as [->|Hin1]; [reflexivity|].
      destruct Hin2 as [->|Hin2]; [reflexivity|].
      exfalso. apply (string_lt_irrefl (fst x)).
      apply string_lt_trans with (fst y); [now apply Hx | now apply Hy]. }
    subst y. f_equal. apply IH; try assumption.
    now apply Permutation_cons_inv in Hperm.
Qed.

Lemma sort_of_permutation es es0 :
  NoDup (keys es) -> StronglySorted key_lt es0 -> Permutation es es0 ->
  sort es = es0.
Proof.
  intros Hnd Hs Hperm. apply key_lt_sorted_unique.
  - now apply sort_sorted.
  - exact Hs.
  - now rewrite sort_perm.
Qed.

(** X1: flattening is idempotent.  The result, read back as an input
    (an object whose fields hold the strings), flattens to itself under
    the same options: same keys, same order, same values. *)
Theorem flatten_is_idempotent input opts out :
  flattenToKeyValue input opts = Normal out ->
  flattenToKeyValue (as_value out) opts = Normal out.
Proof.
  intros Hout.
  destruct (flattenToKeyValue_Normal _ _ _ Hout) as (l & Hl & Heq).
  pose proof (NoDup_keys_entries_of opts l) as Hnd0.
  assert (Hperm : Permutation out (entries_of opts l))
    by (rewrite Heq; now apply Object_fromEntries_perm).
  assert (Hnd : NoDup (keys out))
    by (eapply Permutation_NoDup;
        [symmetry; apply Permutation_map, Hperm | exact Hnd0]).
  assert (Ht : forallb truthy (keys out) = true).
  { apply forallb_forall. intros k Hk. apply truthy_nonempty.
    apply (discovery_order_nonempty l).
    eapply Permutation_in; [apply keys_entries_of_perm|].
    eapply Permutation_in; [apply Permutation_map, Hperm | exact Hk]. }
  rewrite flattenToKeyValue_calls. unfold calls_of.
  rewrite calls_as_value. simpl bind. f_equal.
  assert (Hentries :
            map (fun e => (fst e, join (joiner_of opts) (snd e)))
                (run (add (dedupe_of opts)) out [])
            = out).
  { rewrite (run_add_fresh _ out []); [|exact Hnd | exact Ht].
    simpl. rewrite map_map. rewrite <- (map_id out) at 2.
    apply map_ext. now intros [k v]. }
  unfold entries_of at 1. rewrite Hentries.
  destruct (sortKeys_of opts) eqn:Hsort.
  - rewrite (sort_of_permutation out (entries_of opts l) Hnd);
      [now symmetry | | exact Hperm].
    unfold entries_of. rewrite Hsort. apply sort_sorted.
    rewrite keys_joined, keys_accumulated. apply NoDup_discovery_order.
  - rewrite Heq. now apply Object_fromEntries_idempotent.
Qed.

Lemma flatten_is_idempotent_witness :
  flattenToKeyValue
    (as_value [("purchases.qty", "1,2,3"); ("purchases.sku", "X,Y");
               ("tags", "a,b"); ("user.id", "1"); ("user.name", "Ann")])
    with_dedupe_and_sort
  = Normal [("purchases.qty", "1,2,3"); ("purchases.sku", "X,Y");
            ("tags", "a,b"); ("user.id", "1"); ("user.name", "Ann")].
Proof.
  apply (flatten_is_idempotent readme_input with_dedupe_and_sort).
  reflexivity.
Defined.

(** ** The size of the result *)

Lemma for_of_bounded {A S : Type} (size : S -> nat) (weight : A -> nat)
      (body : A -> S -> completion S) items :
  (forall x, In x items ->
     forall s s', body x s = Normal s' -> size s' <= size s + weight x) ->
  forall s s',
    for_of body items s = Normal s' ->
    size s' <= size s + list_sum (map weight items).
Proof.
  induction items as [|x rest IH]; intros H s s'.
  - intros [= <-]. simpl. lia.
  - rewrite for_of_cons. destruct (body x s) as [s1|e] eqn:E; simpl;
      [|discriminate].
    intros Hrest.
    pose proof (H x (or_introl eq_refl) s s1 E).
    pose proof (IH (fun y Hy => H y (or_intror Hy)) s1 s' Hrest).
    lia.
Qed.

Lemma length_flat_map {A B : Type} (f : A -> list B) l :
  length (flat_map f l) = list_sum (map (fun x => length (f x)) l).
Proof.
  induction l as [|x l IH]; simpl; [reflexivity|].
  now rewrite length_app, IH.
Qed.

Lemma walk_calls_bounded delimiter_ includeNullUndefined_ val :
  forall path (l0 l : log),
    walk delimiter_ includeNullUndefined_ record val path l0 = Normal l ->
    length l <= length l0 + length (chains val).
Proof.
  induction val as [v|items IH|entries IH] using value_induction;
    intros path l0 l.
  - rewrite walk_Leaf. unfold emit_leaf, record.
    destruct (toStr includeNullUndefined_ v) as [[x|]|e]; simpl;
      try discriminate; intros [= <-]; rewrite ?length_app; simpl; lia.
  - rewrite walk_Array_items. simpl chains. rewrite length_flat_map.
    apply (for_of_bounded (@length _) (fun x => length (chains x))).
    intros x Hx s s'. rewrite Forall_forall in IH.
    specialize (IH x Hx path s s').
    destruct x as [v|l1|es]; unfold walk_item; try exact IH.
    destruct (isPrimitive v || instanceof_Date v); [exact IH|].
    intros [= <-]. lia.
  - rewrite walk_Object. simpl chains. rewrite length_flat_map.
    apply (for_of_bounded (@length _)
             (fun kv : string * value =>
                length (map (cons (fst kv)) (chains (snd kv))))).
    intros x Hx s s'. rewrite Forall_forall in IH. rewrite length_map.
    apply (IH x Hx).
Qed.

Lemma length_first_occurrences l : length (first_occurrences l) <= length l.
Proof.
  induction l as [|x l IH]; simpl; [lia|].
  pose proof (filter_length_le (fun y => negb (y =? x)) (first_occurrences l)).
  lia.
Qed.

(** X14: the result has at most one key per leaf of the input, a leaf
    being reached by one chain of field names through the objects and
    arrays. *)
Theorem output_has_at_most_one_key_per_leaf input opts out :
  flattenToKeyValue input opts = Normal out ->
  length out <= length (chains input).
Proof.
  intros Hout.
  destruct (flattenToKeyValue_Normal _ _ _ Hout) as (l & Hl & ->).
  pose proof (walk_calls_bounded _ _ _ _ _ _ Hl) as Hcalls. simpl in Hcalls.
  pose proof (Permutation_length (keys_output_perm opts l)) as Hlen.
  unfold keys in Hlen. rewrite length_map in Hlen. rewrite Hlen.
  unfold discovery_order.
  pose proof (length_first_occurrences (filter truthy (map fst l))).
  pose proof (filter_length_le truthy (map fst l)) as Hf.
  rewrite length_map in Hf. lia.
Qed.

Lemma output_has_at_most_one_key_per_leaf_witness :
  length [("purchases.sku", "X,Y,X"); ("purchases.qty", "1,2,3")]
  <= length (chains purchases).
Proof.
  apply (output_has_at_most_one_key_per_leaf purchases no_options).
  reflexivity.
Defined.
